(** * md-to-anki-converter: extraction of flashcards from Markdown notes

    A shallow embedding of [md-to-anki-converter.py] and the properties of
    its four extractors, its format detector and its card writer.

    Python strings are sequences of code points.  A document is modelled as
    a list of [ascii] characters, read as the code points below 256
    (Latin-1), with the character classes Python gives them. *)

From Stdlib Require Import String Ascii List ZArith NArith Lia Bool Arith DecimalString.
Import ListNotations.

Open Scope string_scope.
Open Scope list_scope.

Definition text := list ascii.

(** String literals stand for the text with the same characters. *)
Coercion list_ascii_of_string : string >-> list.

(** The line feed, Python's ["\n"]. *)
Definition LF : ascii := "010"%char.
Definition nl : text := [LF].

(** A card is a pair (front, back), as the tuples the extractors append. *)
Definition card : Type := text * text.
Definition mk_card (front back : text) : card := (front, back).

(** ** Character classes *)

(** Python's [ord]. *)
Definition ord (c : ascii) : N := N_of_ascii c.

Definition between (lo hi : N) (c : ascii) : bool :=
  ((lo <=? ord c) && (ord c <=? hi))%N.

(** [str.isspace] on one character, which is also the class [\s] of a
    [str] pattern: TAB..CR, FS..US, space, NEL and the no-break space. *)
Definition isspace (c : ascii) : bool :=
  between 9 13 c || between 28 32 c || between 133 133 c || between 160 160 c.

Definition isdigit (c : ascii) : bool := between 48 57 c.

Definition isoctdigit (c : ascii) : bool := between 48 55 c.

Definition is_ascii_letter (c : ascii) : bool :=
  between 65 90 c || between 97 122 c.

(** [str.isalpha]: the ASCII letters and the Latin-1 letters. *)
Definition isalpha (c : ascii) : bool :=
  is_ascii_letter c
  || between 170 170 c || between 181 181 c || between 186 186 c
  || between 192 214 c || between 216 246 c || between 248 255 c.

(** [str.isalnum]: letters, decimal digits, and the Latin-1 superscript
    digits and vulgar fractions, which are numeric. *)
Definition isalnum (c : ascii) : bool :=
  isalpha c || isdigit c
  || between 178 179 c || between 185 185 c || between 188 190 c.

(** The class [\w] of a [str] pattern. *)
Definition isword (c : ascii) : bool := isalnum c || (c =? "_")%char.

(** ** The [str] methods the program calls *)

Module Str.

Fixpoint lstrip (s : text) : text :=
  match s with
  | c :: s' => if isspace c then lstrip s' else s
  | [] => []
  end.

Definition rstrip (s : text) : text := rev (lstrip (rev s)).

(** [s.strip()] *)
Definition strip (s : text) : text := rstrip (lstrip s).

(** [s.startswith(p)] *)
Fixpoint startswith (p s : text) : bool :=
  match p, s with
  | [], _ => true
  | a :: p', b :: s' => (a =? b)%char && startswith p' s'
  | _ :: _, [] => false
  end.

(** [s.split(sep)] for a separator of one character. *)
Fixpoint split (sep : ascii) (s : text) : list text :=
  match s with
  | [] => [[]]
  | c :: s' =>
      if (c =? sep)%char then [] :: split sep s'
      else match split sep s' with
           | l :: ls => (c :: l) :: ls
           | [] => [[c]]
           end
  end.

(** [sep.join(parts)] *)
Fixpoint join (sep : text) (parts : list text) : text :=
  match parts with
  | [] => []
  | [p] => p
  | p :: ps => p ++ sep ++ join sep ps
  end.

(** [sub in s] *)
Fixpoint contains (sub s : text) : bool :=
  startswith sub s ||
  match s with
  | [] => false
  | _ :: s' => contains sub s'
  end.

(** The bounds of [s[a:b]], [s.find(_, a, b)] and [s.rfind(_, a, b)]: a
    negative index counts from the end, and both are clipped to the
    string. *)
Definition clip (len i : Z) : Z :=
  (if i <? 0 then Z.max 0 (i + len) else Z.min i len)%Z.

(** [s[a:b]] *)
Definition slice (s : text) (a b : Z) : text :=
  let len := Z.of_nat (length s) in
  let a' := clip len a in
  let b' := clip len b in
  firstn (Z.to_nat (b' - a')) (skipn (Z.to_nat a') s).

Fixpoint find_from (sub s : text) (i : Z) : Z :=
  if startswith sub s then i
  else match s with
       | [] => (-1)%Z
       | _ :: s' => find_from sub s' (i + 1)%Z
       end.

(** [s.find(sub)]: the lowest index where [sub] occurs, or -1. *)
Definition find (sub s : text) : Z := find_from sub s 0.

(** The occurrences of [sub] are visited left to right from index [i];
    [best] is the last one seen that starts at [lo] or later and ends at
    [hi] or earlier. *)
Fixpoint rfind_from (sub s : text) (lo hi i best : Z) : Z :=
  let best' :=
    if startswith sub s && (lo <=? i)%Z && (i + Z.of_nat (length sub) <=? hi)%Z
    then i else best in
  match s with
  | [] => best'
  | _ :: s' => rfind_from sub s' lo hi (i + 1)%Z best'
  end.

(** [s.rfind(sub, a, b)]: the highest index where [sub] occurs within
    [s[a:b]], or -1. *)
Definition rfind (sub s : text) (a b : Z) : Z :=
  let len := Z.of_nat (length s) in
  rfind_from sub s (clip len a) (clip len b) 0 (-1).

End Str.

(** Python's truth value of a string, and of a variable that is [None] or
    a string. *)
Definition truthy (s : text) : bool :=
  match s with [] => false | _ :: _ => true end.

Definition truthy_opt (o : option text) : bool :=
  match o with Some s => truthy s | None => false end.

(** ** Bullet extractor: [parse_markdown_bullet_points] *)

Record bullet_state : Type := {
  cards : list card;
  current_question : option text;
  current_answer : list text
}.

(** Appends the pending pair when both a question and an answer exist. *)
Definition bullet_flush (st : bullet_state) : list card :=
  match current_question st with
  | Some q =>
      if truthy q && negb (Nat.eqb (length (current_answer st)) 0)
      then cards st ++ [mk_card q (Str.join nl (current_answer st))]
      else cards st
  | None => cards st
  end.

(** One iteration of the loop over the lines. *)
Definition bullet_step (st : bullet_state) (raw : text) : bullet_state :=
  let line := Str.strip raw in
  if negb (truthy line) then st
  else if Str.startswith "- " line || Str.startswith "* " line then
    {| cards := bullet_flush st;
       current_question := Some (Str.strip (skipn 2 line));
       current_answer := [] |}
  else if Str.startswith "  - " line || Str.startswith "  * " line then
    if truthy_opt (current_question st)
    then {| cards := cards st;
            current_question := current_question st;
            current_answer := current_answer st ++ [Str.strip (skipn 4 line)] |}
    else st
  else st.

Definition bullet_init : bullet_state :=
  {| cards := []; current_question := None; current_answer := [] |}.

(** The state when the loop over [lines] ends. *)
Definition bullet_loop (lines : list text) : bullet_state :=
  fold_left bullet_step lines bullet_init.

Definition parse_markdown_bullet_points (md_content : text) : list card :=
  let lines := Str.split LF md_content in
  bullet_flush (bullet_loop lines).

(** ** Exceptions *)

Inductive exn : Type := StopIteration | ReError | IndexError | TypeError.

Inductive result (A : Type) : Type :=
| Ok (a : A)
| Raise (e : exn).

Arguments Ok {A} a.
Arguments Raise {A} e.

Definition bind {A B : Type} (m : result A) (f : A -> result B) : result B :=
  match m with
  | Ok a => f a
  | Raise e => Raise e
  end.

Notation "x <- m ;; k" := (bind m (fun x => k))
  (at level 61, m at next level, right associativity).

(** A loop whose body may raise: the first exception ends it. *)
Fixpoint foldM {A B : Type} (f : A -> B -> result A) (l : list B) (a : A)
  : result A :=
  match l with
  | [] => Ok a
  | b :: l' => a' <- f a b ;; foldM f l' a'
  end.

(** ** The fragment of [re] the program uses *)

Module Re.

(** Repetition is only ever applied to one character class in the
    program's patterns ([\s+], [\s*], [\w+], [.*?]). *)
Inductive regex : Type :=
| Lit (s : text)                   (* literal text; also [re.escape(s)] *)
| Bol                              (* [^] under [(?m)] *)
| Eol                              (* [$] under [(?m)] *)
| Star (p : ascii -> bool)         (* [p*], greedy *)
| Plus (p : ascii -> bool)         (* [p+], greedy *)
| LazyStar (p : ascii -> bool)     (* [p*?] *)
| Group (i : nat) (r : regex)      (* the i-th parenthesis *)
| Seq (r1 r2 : regex)
| Alt (r1 r2 : regex).

(** [.] without and with [re.DOTALL]. *)
Definition dot (c : ascii) : bool := negb (c =? LF)%char.
Definition any (c : ascii) : bool := true.

Definition groups : Type := list (nat * text).

Fixpoint group (i : nat) (g : groups) : option text :=
  match g with
  | [] => None
  | (j, t) :: g' => if Nat.eqb i j then Some t else group i g'
  end.

(** What [findall] and [split] show for a group: its text, empty when
    the group took no part in the match. *)
Definition group_text (i : nat) (g : groups) : text :=
  match group i g with Some t => t | None => [] end.

Section Matcher.

Context {A : Type}.

(** A backtracking matcher in continuation-passing style.  The state
    is the number [n] of characters consumed since the start of the
    match, the character [prev] before the current position, the
    remaining input and the groups captured so far; [None] makes the
    caller try its next alternative. *)
Definition kont : Type := nat -> option ascii -> text -> groups -> option A.

Fixpoint lit (l : text) (k : kont) (n : nat) (prev : option ascii)
  (s : text) (g : groups) : option A :=
  match l with
  | [] => k n prev s g
  | a :: l' =>
      match s with
      | c :: s' => if (a =? c)%char then lit l' k (S n) (Some c) s' g else None
      | [] => None
      end
  end.

(** Greedy: one more character first, the continuation after. *)
Fixpoint star (p : ascii -> bool) (k : kont) (n : nat) (prev : option ascii)
  (s : text) (g : groups) : option A :=
  match s with
  | c :: s' =>
      if p c then
        match star p k (S n) (Some c) s' g with
        | Some a => Some a
        | None => k n prev s g
        end
      else k n prev s g
  | [] => k n prev s g
  end.

(** Lazy: the continuation first, one more character after. *)
Fixpoint lazy_star (p : ascii -> bool) (k : kont) (n : nat)
  (prev : option ascii) (s : text) (g : groups) : option A :=
  match k n prev s g with
  | Some a => Some a
  | None =>
      match s with
      | c :: s' => if p c then lazy_star p k (S n) (Some c) s' g else None
      | [] => None
      end
  end.

Definition at_bol (prev : option ascii) : bool :=
  match prev with
  | None => true
  | Some c => (c =? LF)%char
  end.

Definition at_eol (s : text) : bool :=
  match s with
  | [] => true
  | c :: _ => (c =? LF)%char
  end.

Fixpoint rmatch (r : regex) (k : kont) (n : nat) (prev : option ascii)
  (s : text) (g : groups) : option A :=
  match r with
  | Lit l => lit l k n prev s g
  | Bol => if at_bol prev then k n prev s g else None
  | Eol => if at_eol s then k n prev s g else None
  | Star p => star p k n prev s g
  | Plus p =>
      match s with
      | c :: s' => if p c then star p k (S n) (Some c) s' g else None
      | [] => None
      end
  | LazyStar p => lazy_star p k n prev s g
  | Group i r1 =>
      rmatch r1 (fun n' prev' s' g' =>
                   k n' prev' s' ((i, firstn (n' - n) s) :: g'))
             n prev s g
  | Seq r1 r2 =>
      rmatch r1 (fun n' prev' s' g' => rmatch r2 k n' prev' s' g') n prev s g
  | Alt r1 r2 =>
      match rmatch r1 k n prev s g with
      | Some a => Some a
      | None => rmatch r2 k n prev s g
      end
  end.

End Matcher.

(** A match starting at the current position: its length and groups. *)
Definition match_at (r : regex) (prev : option ascii) (s : text)
  : option (nat * groups) :=
  rmatch r (fun n _ _ g => Some (n, g)) 0 prev s [].

(** [re.search]: the leftmost match, with the text before it and the
    text from its start on. *)
Fixpoint search_from (r : regex) (prev : option ascii) (before : text)
  (s : text) : option (text * nat * groups * text) :=
  match match_at r prev s with
  | Some (n, g) => Some (rev before, n, g, s)
  | None =>
      match s with
      | c :: s' => search_from r (Some c) (c :: before) s'
      | [] => None
      end
  end.

Definition search (r : regex) (s : text) : bool :=
  match search_from r None [] s with Some _ => true | None => false end.

(** The successive matches of a pattern, each with the text between the
    previous match and itself, and the text after the last one. *)
Inductive scanned : Type :=
| Done (tail : text)
| Found (pre matched : text) (g : groups) (rest : scanned).

(** The scan of [findall] and [split].  [skip] counts the characters
    still to pass of the match just found; the next match is looked for
    where it ends.  No match of the patterns the program scans with is
    empty (see [match_never_empty] below), and an empty match is passed
    over. *)
Fixpoint scan (r : regex) (skip : nat) (prev : option ascii) (gap : text)
  (s : text) : scanned :=
  match skip with
  | S k =>
      match s with
      | c :: s' => scan r k (Some c) gap s'
      | [] => Done (rev gap)
      end
  | O =>
      match s with
      | c :: s' =>
          match match_at r prev s with
          | Some (S k, g) =>
              Found (rev gap) (firstn (S k) s) g (scan r k (Some c) [] s')
          | _ => scan r 0 (Some c) (c :: gap) s'
          end
      | [] => Done (rev gap)
      end
  end.

Definition finditer (r : regex) (s : text) : scanned := scan r 0 None [] s.

(** [re.findall] for a pattern with two groups: a pair per match. *)
Fixpoint pairs_of (sc : scanned) : list (text * text) :=
  match sc with
  | Done _ => []
  | Found _ _ g rest => (group_text 1 g, group_text 2 g) :: pairs_of rest
  end.

Definition findall2 (r : regex) (s : text) : list (text * text) :=
  pairs_of (finditer r s).

(** [re.split] for a pattern with [ngroups] groups: the text between
    the matches, each match contributing its groups. *)
Fixpoint pieces_of (ngroups : nat) (sc : scanned) : list text :=
  match sc with
  | Done tail => [tail]
  | Found pre _ g rest =>
      pre :: map (fun i => group_text i g) (seq 1 ngroups)
        ++ pieces_of ngroups rest
  end.

Definition split (r : regex) (ngroups : nat) (s : text) : list text :=
  pieces_of ngroups (finditer r s).

(** *** Replacement templates of [re.sub]

    A replacement string with a backslash is parsed as a template.  The
    patterns [re.sub] is called with here have no group, so the only
    group a template may refer to is the whole match. *)

Inductive titem : Type :=
| TChar (c : ascii)
| TWhole.

Definition chr (n : N) : ascii := ascii_of_N n.

Definition digit_val (c : ascii) : N := (ord c - 48)%N.

Definition is_identifier_start (c : ascii) : bool :=
  isalpha c || (c =? "_")%char.

Definition is_identifier_part (c : ascii) : bool :=
  isalpha c || isdigit c || (c =? "_")%char || between 183 183 c.

(** [str.isidentifier] *)
Definition isidentifier (s : text) : bool :=
  match s with
  | [] => false
  | c :: s' => is_identifier_start c && forallb is_identifier_part s'
  end.

(** [\g<name>] against a pattern without groups; a name that is not an
    identifier must be a decimal number, as Python 3.12 reads it. *)
Definition group_ref (name : text) : result (list titem) :=
  match name with
  | [] => Raise ReError
  | _ :: _ =>
      if isidentifier name then Raise IndexError
      else if forallb (fun c => (c =? "0")%char) name then Ok [TWhole]
      else Raise ReError
  end.

(** The escapes a template translates. *)
Definition escape (c : ascii) : option ascii :=
  if (c =? "a")%char then Some (chr 7)
  else if (c =? "b")%char then Some (chr 8)
  else if (c =? "f")%char then Some (chr 12)
  else if (c =? "n")%char then Some (chr 10)
  else if (c =? "r")%char then Some (chr 13)
  else if (c =? "t")%char then Some (chr 9)
  else if (c =? "v")%char then Some (chr 11)
  else if (c =? "092")%char then Some c
  else None.

Inductive tmode : Type :=
| TNormal
| TName (name_rev : text).

Definition tcons (i : titem) (r : result (list titem)) : result (list titem) :=
  l <- r ;; Ok (i :: l).

Fixpoint parse_template (m : tmode) (s : text) : result (list titem) :=
  match m with
  | TName acc =>
      match s with
      | [] => Raise ReError
      | c :: s' =>
          if (c =? ">")%char then
            ref <- group_ref (rev acc) ;;
            l <- parse_template TNormal s' ;;
            Ok (ref ++ l)
          else if (c =? "092")%char then
            match s' with
            | [] => Raise ReError
            | e :: s'' => parse_template (TName (e :: c :: acc)) s''
            end
          else parse_template (TName (c :: acc)) s'
      end
  | TNormal =>
      match s with
      | [] => Ok []
      | c :: s' =>
          if negb (c =? "092")%char then tcons (TChar c) (parse_template TNormal s')
          else
            match s' with
            | [] => Raise ReError
            | e :: s'' =>
                if (e =? "g")%char then
                  match s'' with
                  | "<"%char :: s3 => parse_template (TName []) s3
                  | _ => Raise ReError
                  end
                else if (e =? "0")%char then
                  match s'' with
                  | d1 :: s3 =>
                      if isoctdigit d1 then
                        match s3 with
                        | d2 :: s4 =>
                            if isoctdigit d2 then
                              tcons (TChar (chr (N.land (8 * digit_val d1 + digit_val d2) 255)))
                                    (parse_template TNormal s4)
                            else tcons (TChar (chr (digit_val d1)))
                                       (parse_template TNormal s3)
                        | [] => Ok [TChar (chr (digit_val d1))]
                        end
                      else tcons (TChar (chr 0)) (parse_template TNormal s'')
                  | [] => Ok [TChar (chr 0)]
                  end
                else if isdigit e then
                  match s'' with
                  | d1 :: d2 :: s4 =>
                      if isoctdigit e && isoctdigit d1 && isoctdigit d2 then
                        let v := (64 * digit_val e + 8 * digit_val d1 + digit_val d2)%N in
                        if (255 <? v)%N then Raise ReError
                        else tcons (TChar (chr v)) (parse_template TNormal s4)
                      else Raise ReError
                  | _ => Raise ReError
                  end
                else
                  match escape e with
                  | Some x => tcons (TChar x) (parse_template TNormal s'')
                  | None =>
                      if is_ascii_letter e then Raise ReError
                      else tcons (TChar c) (tcons (TChar e) (parse_template TNormal s''))
                  end
            end
      end
  end.

Fixpoint expand (t : list titem) (whole : text) : text :=
  match t with
  | [] => []
  | TChar c :: t' => c :: expand t' whole
  | TWhole :: t' => whole ++ expand t' whole
  end.

(** [re.sub(pattern, repl, s, 1)]: the template is compiled first, then
    the leftmost match, if any, is replaced. *)
Definition sub1 (r : regex) (repl : text) (s : text) : result text :=
  t <- parse_template TNormal repl ;;
  match search_from r None [] s with
  | Some (before, n, _, at_match) =>
      Ok (before ++ expand t (firstn n at_match) ++ skipn n at_match)
  | None => Ok s
  end.

End Re.

Notation "r1 >> r2" := (Re.Seq r1 r2) (at level 60, right associativity).

(** [str(n)] for a natural number. *)
Definition str_of_nat (n : nat) : text :=
  list_ascii_of_string (NilEmpty.string_of_uint (Nat.to_uint n)).

(** ** Section extractor: [parse_markdown_h2_sections] *)

(** [(?m)^##\s+(.*?)$] *)
Definition h2_re : Re.regex :=
  Re.Bol >> Re.Lit "##" >> Re.Plus isspace >> Re.Group 1 (Re.LazyStar Re.dot) >> Re.Eol.

(** The loop over the even indexes: an element without a successor is
    left out. *)
Fixpoint pair_sections (sections : list text) : list card :=
  match sections with
  | a :: b :: rest => mk_card (Str.strip a) (Str.strip b) :: pair_sections rest
  | _ => []
  end.

Definition parse_markdown_h2_sections (md_content : text) : list card :=
  let sections := Re.split h2_re 1 md_content in
  let sections :=
    match sections with
    | first :: rest => if negb (truthy (Str.strip first)) then rest else sections
    | [] => []
    end in
  pair_sections sections.

(** ** Code-block extractor: [parse_markdown_code_blocks] *)

Definition fence : text := "```".

(** [```(\w+)\n(.*?)```] under [re.DOTALL] *)
Definition code_block_re : Re.regex :=
  Re.Lit fence >> Re.Group 1 (Re.Plus isword) >> Re.Lit nl
    >> Re.Group 2 (Re.LazyStar Re.any) >> Re.Lit fence.

(** The body of the loop: the card of one block, if any. *)
Definition code_block_card (md_content : text) (block : text * text)
  : option card :=
  let (lang, code) := block in
  let question :=
    "What does this " ++ lang ++ " code do?" ++ nl
      ++ fence ++ lang ++ nl ++ Str.strip code ++ nl ++ fence in
  let block_position := Str.find (fence ++ lang ++ nl ++ code) md_content in
  let start_of_paragraph := Str.rfind (nl ++ nl) md_content 0 block_position in
  if negb (start_of_paragraph =? -1)%Z then
    let context :=
      Str.strip (Str.slice md_content start_of_paragraph block_position) in
    if truthy context && negb (Str.startswith fence context)
    then Some (mk_card question context)
    else None
  else None.

Fixpoint code_cards (md_content : text) (code_blocks : list (text * text))
  : list card :=
  match code_blocks with
  | [] => []
  | block :: rest =>
      match code_block_card md_content block with
      | Some c => c :: code_cards md_content rest
      | None => code_cards md_content rest
      end
  end.

Definition parse_markdown_code_blocks (md_content : text) : list card :=
  code_cards md_content (Re.findall2 code_block_re md_content).

(** ** Cloze extractor: [create_cloze_cards] *)

(** [\n\s*\n] *)
Definition paragraph_re : Re.regex :=
  Re.Lit nl >> Re.Star isspace >> Re.Lit nl.

(** [\*\*(.*?)\*\*|`(.*?)`] *)
Definition highlight_re : Re.regex :=
  Re.Alt (Re.Lit "**" >> Re.Group 1 (Re.LazyStar Re.dot) >> Re.Lit "**")
         (Re.Lit "`" >> Re.Group 2 (Re.LazyStar Re.dot) >> Re.Lit "`").

(** [next(h for h in highlight if h)] *)
Definition next_truthy (highlight : text * text) : result text :=
  if truthy (fst highlight) then Ok (fst highlight)
  else if truthy (snd highlight) then Ok (snd highlight)
  else Raise StopIteration.

(** The deletion marker, [{{c<count>::<text>}}]. *)
Definition cloze_marker (count : nat) (highlighted_text : text) : text :=
  "{{c" ++ str_of_nat count ++ "::" ++ highlighted_text ++ "}}".

(** The body of the loop over the highlights, on (cloze_text, count). *)
Definition cloze_step (st : text * nat) (highlight : text * text)
  : result (text * nat) :=
  let (cloze_text, count) := st in
  highlighted_text <- next_truthy highlight ;;
  let bold := Re.Lit ("**" ++ highlighted_text ++ "**") in
  let pattern :=
    if negb (Re.search bold cloze_text)
    then Re.Lit ("`" ++ highlighted_text ++ "`")
    else bold in
  cloze_text' <- Re.sub1 pattern (cloze_marker count highlighted_text) cloze_text ;;
  Ok (cloze_text', S count).

(** The body of the loop over the paragraphs: the card of one paragraph,
    if any. *)
Definition cloze_paragraph (paragraph : text) : result (option card) :=
  if Str.startswith "#" paragraph || (length paragraph <? 20)%nat then Ok None
  else
    let highlights := Re.findall2 highlight_re paragraph in
    match highlights with
    | [] => Ok None
    | _ :: _ =>
        st <- foldM cloze_step highlights (paragraph, 1) ;;
        if Str.contains "{{c" (fst st)
        then Ok (Some (mk_card (fst st) ""))
        else Ok None
    end.

Definition cloze_loop (cards : list card) (paragraph : text)
  : result (list card) :=
  c <- cloze_paragraph paragraph ;;
  match c with
  | Some c => Ok (cards ++ [c])
  | None => Ok cards
  end.

Definition create_cloze_cards (md_content : text) : result (list card) :=
  let paragraphs := Re.split paragraph_re 0 md_content in
  foldM cloze_loop paragraphs [].

(** ** Format detector: [detect_card_format] *)

Inductive format : Type := sections | bullets | code | cloze.

(** [(?m)^##\s+] *)
Definition h2_start_re : Re.regex := Re.Bol >> Re.Lit "##" >> Re.Plus isspace.

(** [(?m)^- |^\* ] *)
Definition bullet_re : Re.regex :=
  Re.Alt (Re.Bol >> Re.Lit "- ") (Re.Bol >> Re.Lit "* ").

(** [(?m)^  - |^  \* ] *)
Definition sub_bullet_re : Re.regex :=
  Re.Alt (Re.Bol >> Re.Lit "  - ") (Re.Bol >> Re.Lit "  * ").

(** [```\w+\n] *)
Definition fence_open_re : Re.regex :=
  Re.Lit fence >> Re.Plus isword >> Re.Lit nl.

Definition detect_card_format (md_content : text) : format :=
  if Re.search h2_start_re md_content then sections
  else if Re.search bullet_re md_content && Re.search sub_bullet_re md_content
  then bullets
  else if Re.search fence_open_re md_content then code
  else cloze.

(** ** [convert_md_to_anki] *)

Definition convert_md_to_anki (md_content : text) (cloze_mode : bool)
  : result (list card * format) :=
  let format_method := if cloze_mode then cloze else detect_card_format md_content in
  match format_method with
  | sections => Ok (parse_markdown_h2_sections md_content, format_method)
  | bullets => Ok (parse_markdown_bullet_points md_content, format_method)
  | code => Ok (parse_markdown_code_blocks md_content, format_method)
  | cloze =>
      cards <- create_cloze_cards md_content ;;
      Ok (cards, format_method)
  end.

(** ** Card writer: [write_cards_to_file] *)

(** The [csv] module, for the dialect the program writes in: the delimiter
    it is given, the double quote as quote character, quotes doubled,
    fields quoted only where needed, records ended by CR LF, no escape
    character. *)
Module Csv.

Definition row : Type := list text.

Definition CR : ascii := "013"%char.
Definition quotechar : ascii := "034"%char.
Definition lineterminator : text := [CR; LF].

(** *** [csv.writer] *)

(** The writer, with the text it has written to the file. *)
Record writer : Type := { delimiter : ascii; written : text }.

(** [csv.writer(f, delimiter=d)] on a file just opened for writing; the
    delimiter must be a string of one character. *)
Definition new (d : text) : result writer :=
  match d with
  | [c] => Ok {| delimiter := c; written := [] |}
  | _ => Raise TypeError
  end.

(** A character that makes the writer quote the field it stands in. *)
Definition special (d c : ascii) : bool :=
  (c =? d)%char || (c =? quotechar)%char || existsb (Ascii.eqb c) lineterminator.

(** The characters of a field as they are written, quotes doubled. *)
Fixpoint doubled (field : text) : text :=
  match field with
  | [] => []
  | c :: field' =>
      if (c =? quotechar)%char then c :: c :: doubled field'
      else c :: doubled field'
  end.

Definition join_field (d : ascii) (field : text) : text :=
  if existsb (special d) field
  then quotechar :: doubled field ++ [quotechar]
  else field.

(** A record of one empty field is written as two quotes. *)
Definition join_row (d : ascii) (r : row) : text :=
  match r with
  | [[]] => [quotechar; quotechar]
  | _ => Str.join [d] (map (join_field d) r)
  end.

Definition writerow (w : writer) (r : row) : writer :=
  {| delimiter := delimiter w;
     written := written w ++ join_row (delimiter w) r ++ lineterminator |}.

(** *** [csv.reader]

    The parser of the reader, for the same dialect; the states that serve
    an escape character are left out, the dialect has none.  The reader
    is fed the lines of the file, opened with [newline=''], character by
    character, and an end-of-line signal after each line.  A line ends
    after LF, after CR when no LF follows, and at the end of the file. *)

Inductive state : Type :=
| START_RECORD
| START_FIELD
| IN_FIELD
| IN_QUOTED_FIELD
| QUOTE_IN_QUOTED_FIELD
| EAT_CRNL.

Record parser : Type := {
  st : state;
  fields : row;
  field : text
}.

Definition parse_reset : parser :=
  {| st := START_RECORD; fields := []; field := [] |}.

(** [csv.field_size_limit()] *)
Definition field_limit : N := 131072.

Definition parse_save_field (p : parser) : parser :=
  {| st := st p; fields := fields p ++ [field p]; field := [] |}.

Definition goto (s : state) (p : parser) : parser :=
  {| st := s; fields := fields p; field := field p |}.

(** [None] when the field is at its limit: the reader raises
    [csv.Error]. *)
Definition parse_add_char (p : parser) (c : ascii) : option parser :=
  if (field_limit <=? N.of_nat (length (field p)))%N then None
  else Some {| st := st p; fields := fields p; field := field p ++ [c] |}.

Definition is_newline (c : ascii) : bool := (c =? LF)%char || (c =? CR)%char.

(** A character where a field is expected. *)
Definition start_field (d : ascii) (p : parser) (c : ascii) : option parser :=
  if is_newline c then Some (goto EAT_CRNL (parse_save_field p))
  else if (c =? quotechar)%char then Some (goto IN_QUOTED_FIELD p)
  else if (c =? d)%char then Some (goto START_FIELD (parse_save_field p))
  else option_map (goto IN_FIELD) (parse_add_char p c).

(** One character of a line. *)
Definition parse_process_char (d : ascii) (p : parser) (c : ascii)
  : option parser :=
  match st p with
  | START_RECORD =>
      if is_newline c then Some (goto EAT_CRNL p) else start_field d p c
  | START_FIELD => start_field d p c
  | IN_FIELD =>
      if is_newline c then Some (goto EAT_CRNL (parse_save_field p))
      else if (c =? d)%char then Some (goto START_FIELD (parse_save_field p))
      else parse_add_char p c
  | IN_QUOTED_FIELD =>
      if (c =? quotechar)%char then Some (goto QUOTE_IN_QUOTED_FIELD p)
      else parse_add_char p c
  | QUOTE_IN_QUOTED_FIELD =>
      if (c =? quotechar)%char
      then option_map (goto IN_QUOTED_FIELD) (parse_add_char p c)
      else if (c =? d)%char then Some (goto START_FIELD (parse_save_field p))
      else if is_newline c then Some (goto EAT_CRNL (parse_save_field p))
      else option_map (goto IN_FIELD) (parse_add_char p c)
  | EAT_CRNL =>
      if is_newline c then Some p else None
  end.

(** The end-of-line signal. *)
Definition parse_process_eol (p : parser) : parser :=
  match st p with
  | START_RECORD => p
  | START_FIELD | IN_FIELD | QUOTE_IN_QUOTED_FIELD =>
      goto START_RECORD (parse_save_field p)
  | IN_QUOTED_FIELD => p
  | EAT_CRNL => goto START_RECORD p
  end.

(** The line of the file ends after [c], which [s] follows. *)
Definition line_ends (c : ascii) (s : text) : bool :=
  match s with
  | [] => true
  | c' :: _ => (c =? LF)%char || ((c =? CR)%char && negb (c' =? LF)%char)
  end.

Definition at_start (p : parser) : bool :=
  match st p with START_RECORD => true | _ => false end.

(** The records read from the text [s] of a file, [None] when the reader
    raises [csv.Error].  A record is complete when the parser is back at
    the start of a record after the end of a line; at the end of the file
    a record under way is given as it stands. *)
Fixpoint read (d : ascii) (p : parser) (s : text) : option (list row) :=
  match s with
  | [] =>
      if truthy (field p)
         || match st p with IN_QUOTED_FIELD => true | _ => false end
      then Some [fields (parse_save_field p)]
      else Some []
  | c :: s' =>
      match parse_process_char d p c with
      | None => None
      | Some p1 =>
          if line_ends c s' then
            let p2 := parse_process_eol p1 in
            if at_start p2
            then option_map (cons (fields p2)) (read d parse_reset s')
            else read d p2 s'
          else read d p1 s'
      end
  end.

(** [list(csv.reader(f, delimiter=d))] *)
Definition reader (d : ascii) (s : text) : option (list row) :=
  read d parse_reset s.

End Csv.

Fixpoint text_eqb (a b : text) : bool :=
  match a, b with
  | [], [] => true
  | x :: a', y :: b' => (x =? y)%char && text_eqb a' b'
  | _, _ => false
  end.

(** Returns the text of the output file. *)
Definition write_cards_to_file (cards : list card) (delimiter : text)
  (tag_list : option text) (card_type : text) : result text :=
  writer <- Csv.new delimiter ;;
  let tags := match tag_list with None => [] | Some t => t end in
  let writer :=
    if text_eqb card_type "Cloze"
    then fold_left (fun w c => Csv.writerow w [fst c; tags]) cards writer
    else fold_left (fun w c => Csv.writerow w [fst c; snd c; tags]) cards writer in
  Ok (Csv.written writer).

(** ** Orchestrator: [main] *)

(** The choices of [--format]. *)
Inductive out_format : Type := Csv_format | Tsv_format.

(** The parsed command line, apart from the two paths. *)
Record arguments : Type := {
  arg_format : out_format;
  arg_delimiter : option text;
  arg_tags : text;
  arg_cloze : bool
}.

(** What opening and reading the input file gives. *)
Inductive read_outcome : Type :=
| Read (md_content : text)
| NotFound
| ReadError.

Definition TAB : ascii := "009"%char.

(** The delimiter after the default is filled in. *)
Definition delimiter_of (args : arguments) : text :=
  match arg_delimiter args with
  | Some d => d
  | None =>
      match arg_format args with
      | Tsv_format => [TAB]
      | Csv_format => ","
      end
  end.

Definition is_cloze (f : format) : bool :=
  match f with cloze => true | _ => false end.

Definition card_type_of (cloze_flag : bool) (detected_format : format) : text :=
  if cloze_flag || is_cloze detected_format then "Cloze" else "Basic".

(** What a run leaves: the status returned, the text of the output file
    when it was opened for writing, and the summary printed on success
    (number of cards, format detected, card type). *)
Record outcome : Type := {
  exit_code : Z;
  output_file : option text;
  summary : option (nat * format * text)
}.

Definition failure (output : option text) : outcome :=
  {| exit_code := 1; output_file := output; summary := None |}.

(** [main].  The conversion runs outside the [try] blocks, so what it
    raises is not caught; whatever the writing raises is caught and gives
    the status 1.  [can_open] tells whether the output file can be opened
    for writing; once opened it is empty until records are written. *)
Definition main (args : arguments) (input : read_outcome) (can_open : bool)
  : result outcome :=
  match input with
  | NotFound => Ok (failure None)
  | ReadError => Ok (failure None)
  | Read md_content =>
      converted <- convert_md_to_anki md_content (arg_cloze args) ;;
      let cards := fst converted in
      let detected_format := snd converted in
      let card_type := card_type_of (arg_cloze args) detected_format in
      if can_open then
        match write_cards_to_file cards (delimiter_of args)
                (Some (arg_tags args)) card_type with
        | Ok written =>
            Ok {| exit_code := 0;
                  output_file := Some written;
                  summary := Some (length cards, detected_format, card_type) |}
        | Raise _ => Ok (failure (Some []))
        end
      else Ok (failure None)
  end.

(** * Vocabulary of the statements *)

(** The number of matches a scan has found. *)
Fixpoint match_count (sc : Re.scanned) : nat :=
  match sc with
  | Re.Done _ => 0
  | Re.Found _ _ _ rest => S (match_count rest)
  end.

(** A text without white space at either end. *)
Definition stripped (s : text) : Prop := Str.strip s = s.

(** A text of white space only. *)
Definition all_space (s : text) : bool := forallb isspace s.

(** A letter that a replacement template does not accept after a
    backslash. *)
Definition unknown_escape (e : ascii) : bool :=
  is_ascii_letter e && negb (e =? "g")%char
  && match Re.escape e with None => true | Some _ => false end.

Definition front_nonempty (c : card) : Prop := fst c <> [].

(** The tag field of every record. *)
Definition tags_of (tag_list : option text) : text :=
  match tag_list with None => [] | Some t => t end.

(** A delimiter that is neither the quote character nor CR nor LF. *)
Definition plain_delimiter (d : ascii) : bool :=
  negb (d =? Csv.quotechar)%char && negb (Csv.is_newline d).

(** A field no longer than the limit of the reader. *)
Definition fits (field : text) : bool :=
  (N.of_nat (length field) <=? Csv.field_limit)%N.

(** The text of a file to which the records [rows] are written in turn. *)
Definition file_of (d : ascii) (rows : list Csv.row) : text :=
  flat_map (fun r => Csv.join_row d r ++ Csv.lineterminator) rows.

(** The states in which the reader expects a field, and those it is in
    after the last character of a field. *)
Definition starting (s : Csv.state) : Prop :=
  s = Csv.START_RECORD \/ s = Csv.START_FIELD.

Definition after_field (s : Csv.state) : Prop :=
  s = Csv.START_RECORD \/ s = Csv.START_FIELD \/ s = Csv.IN_FIELD \/
  s = Csv.QUOTE_IN_QUOTED_FIELD.

(** The character before the position reached after [pre]. *)
Definition prev_after (prev : option ascii) (pre : text) : option ascii :=
  fold_left (fun _ c => Some c) pre prev.

(** Two continuations that agree whatever the previous character is. *)
Definition same_kont {A : Type} (k1 k2 : @Re.kont A) : Prop :=
  forall n p1 p2 s g, k1 n p1 s g = k2 n p2 s g.

(** Patterns without [^] and [$] match the same whatever precedes. *)
Fixpoint anchor_free (r : Re.regex) : bool :=
  match r with
  | Re.Bol | Re.Eol => false
  | Re.Group _ r1 => anchor_free r1
  | Re.Seq r1 r2 | Re.Alt r1 r2 => anchor_free r1 && anchor_free r2
  | _ => true
  end.

(** Every match of the pattern takes at least one character. *)
Fixpoint consumes (r : Re.regex) : bool :=
  match r with
  | Re.Lit l => truthy l
  | Re.Plus _ => true
  | Re.Group _ r1 => consumes r1
  | Re.Seq r1 r2 => consumes r1 || consumes r2
  | Re.Alt r1 r2 => consumes r1 && consumes r2
  | _ => false
  end.

(** The text [pre] ends where a line starts. *)
Definition at_line_start (pre : text) : Prop :=
  pre = [] \/ exists p, pre = p ++ nl.

Definition star_char : ascii := "*"%char.
Definition tick_char : ascii := "`"%char.
Definition backslash : ascii := "092"%char.

(** The character [x] does not occur in [s]. *)
Definition lacks (x : ascii) (s : text) : bool :=
  forallb (fun c => negb (c =? x)%char) s.

Definition no_backtick (s : text) : bool := lacks tick_char s.

(** Text without highlight delimiters. *)
Definition plain (s : text) : bool := lacks star_char s && lacks tick_char s.

(** The blank-line boundary, ["\n\n"]. *)
Definition blank : text := nl ++ nl.

Definition not_lf_head (s : text) : Prop :=
  match s with [] => True | c :: _ => c <> LF end.

(** The paragraphs of a document, as the cloze extractor splits it. *)
Definition paragraphs (md_content : text) : list text :=
  Re.split paragraph_re 0 md_content.

(** *** Fenced blocks, in the words of the specification *)

(** The longest run of word characters at the head of [s], and the text
    after it. *)
Fixpoint word_run (s : text) : text * text :=
  match s with
  | c :: s' =>
      if isword c then let (w, rest) := word_run s' in (c :: w, rest)
      else ([], s)
  | [] => ([], [])
  end.

(** The text before the next triple backtick of [s], and the text after
    this triple backtick. *)
Fixpoint upto_fence (s : text) : option (text * text) :=
  if Str.startswith fence s then Some ([], skipn (length fence) s)
  else
    match s with
    | c :: s' =>
        match upto_fence s' with
        | Some (code0, rest) => Some (c :: code0, rest)
        | None => None
        end
    | [] => None
    end.

(** The block that opens at the head of [s]: three backticks, immediately
    a language word, a line feed, and the code up to the next triple
    backtick.  Gives the language, the code and the text after the closing
    fence. *)
Definition block_at (s : text) : option (text * text * text) :=
  if Str.startswith fence s then
    match word_run (skipn (length fence) s) with
    | (l :: lang, c :: s2) =>
        if (c =? LF)%char then
          match upto_fence s2 with
          | Some (code0, rest) => Some (l :: lang, code0, rest)
          | None => None
          end
        else None
    | _ => None
    end
  else None.

(** The blocks of a text from left to right: where a block opens it is
    taken, and the reading goes on after its closing fence; elsewhere the
    reading moves on by one character.  [fuel] bounds the number of
    steps. *)
Fixpoint blocks_from (fuel : nat) (s : text) : list (text * text) :=
  match fuel with
  | O => []
  | S fuel' =>
      match block_at s with
      | Some (lang, code0, rest) => (lang, code0) :: blocks_from fuel' rest
      | None =>
          match s with
          | [] => []
          | _ :: s' => blocks_from fuel' s'
          end
      end
  end.

Definition fenced_blocks (md_content : text) : list (text * text) :=
  blocks_from (length md_content) md_content.

(** ** Documents of the examples *)

Definition bullet_example : text :=
  "- Q1" ++ nl ++ "  - A1" ++ nl ++ "  - A2" ++ nl ++ "- Q2".

Definition preamble_example : text :=
  "intro" ++ nl ++ "## A" ++ nl ++ "body1" ++ nl ++ "## B" ++ nl ++ "body2".

Definition mixed_example_pre : text :=
  "- top" ++ nl ++ "  - nested" ++ nl ++ "```py" ++ nl ++ "x = 1" ++ nl
    ++ "```" ++ nl ++ "a **bold** and `literal` span" ++ nl.

Definition block_example_pre : text := "Intro.".

Definition block_example_para : text := "This prints" ++ nl ++ "a number:".

Definition block_example_code : text := "print(1)" ++ nl.

Definition sentence : text := "The **mitochondria** is the **powerhouse**".

Definition sentence_cloze : text :=
  "The {{c1::mitochondria}} is the {{c2::powerhouse}}".

Definition inline_fence_example : text :=
  "Note." ++ nl ++ nl ++ "Example:" ++ nl
    ++ "```py" ++ nl ++ "x = 1 ``` and more text" ++ nl.



(** * Properties *)

(** Lengths of concatenations of literals. *)
Ltac len :=
  unfold fence, blank, nl in *;
  repeat (rewrite ?length_app, ?length_rev; cbn [length list_ascii_of_string app]);
  try lia.

(** ** Lists *)

Lemma firstn_exact {X : Type} (a b : list X) (n : nat) :
  n = length a -> firstn n (a ++ b) = a.
Proof.
  intros ->. rewrite firstn_app, Nat.sub_diag, firstn_all. simpl.
  apply app_nil_r.
Qed.

Lemma skipn_exact {X : Type} (a b : list X) (n : nat) :
  n = length a -> skipn n (a ++ b) = b.
Proof.
  intros ->. rewrite skipn_app, Nat.sub_diag, skipn_all. reflexivity.
Qed.

(** ** Stripping *)

Lemma lstrip_head (s : text) :
  Str.lstrip s = [] \/
  exists c r, Str.lstrip s = c :: r /\ isspace c = false.
Proof.
  induction s as [|c s IH]; simpl.
  - now left.
  - destruct (isspace c) eqn:E; [exact IH|].
    right. now exists c, s.
Qed.

Lemma lstrip_keeps_last (s : text) (c : ascii) :
  isspace c = false -> exists y, Str.lstrip (s ++ [c]) = y ++ [c].
Proof.
  intros Hc. induction s as [|d s IH]; simpl.
  - rewrite Hc. now exists [].
  - destruct (isspace d); [exact IH|].
    now exists (d :: s).
Qed.

Lemma rstrip_keeps_head (c : ascii) (r : text) :
  isspace c = false -> exists r', Str.rstrip (c :: r) = c :: r'.
Proof.
  intros Hc. unfold Str.rstrip. simpl.
  destruct (lstrip_keeps_last (rev r) c Hc) as [y ->].
  rewrite rev_app_distr. simpl. now exists (rev y).
Qed.

(** A stripped string is empty or starts with a character that is not
    white space. *)
Lemma strip_head (s : text) :
  Str.strip s = [] \/
  exists c r, Str.strip s = c :: r /\ isspace c = false.
Proof.
  unfold Str.strip.
  destruct (lstrip_head s) as [-> | (c & r & -> & Hc)].
  - now left.
  - right. destruct (rstrip_keeps_head c r Hc) as [r' ->].
    now exists c, r'.
Qed.

Lemma startswith_space_stripped (p s : text) :
  Str.startswith (" "%char :: p) (Str.strip s) = false.
Proof.
  destruct (strip_head s) as [-> | (c & r & -> & Hc)]; [reflexivity|].
  cbn [Str.startswith].
  destruct (Ascii.eqb_spec " "%char c) as [<- | _]; [discriminate|].
  reflexivity.
Qed.

Lemma lstrip_id (c : ascii) (s : text) :
  isspace c = false -> Str.lstrip (c :: s) = c :: s.
Proof. intros H. simpl. now rewrite H. Qed.

Lemma strip_last (s : text) :
  Str.strip s = [] \/
  exists r c, Str.strip s = r ++ [c] /\ isspace c = false.
Proof.
  unfold Str.strip, Str.rstrip.
  destruct (lstrip_head (rev (Str.lstrip s))) as [-> | (c & r & -> & Hc)].
  - now left.
  - right. exists (rev r), c. now split.
Qed.

(** ** Searching and slicing *)

Lemma startswith_app (l s : text) : Str.startswith l (l ++ s) = true.
Proof.
  induction l as [|a l IH]; [reflexivity|].
  cbn [app Str.startswith]. now rewrite Ascii.eqb_refl.
Qed.

Lemma startswith_mismatch (a c : ascii) (l s : text) :
  a <> c -> Str.startswith (a :: l) (c :: s) = false.
Proof.
  intros H. cbn [Str.startswith]. now destruct (Ascii.eqb_spec a c).
Qed.

Lemma contains_here (sub s : text) :
  Str.startswith sub s = true -> Str.contains sub s = true.
Proof. intros H. destruct s; cbn [Str.contains]; now rewrite H. Qed.

Lemma contains_app (sub a b : text) : Str.contains sub (a ++ sub ++ b) = true.
Proof.
  induction a as [|c a IH].
  - cbn [app]. apply contains_here, startswith_app.
  - cbn [app Str.contains]. rewrite IH. apply orb_true_r.
Qed.

Lemma contains_nonempty (a : ascii) (sub s : text) :
  Str.contains (a :: sub) s = true -> s <> [].
Proof. now destruct s. Qed.

Lemma lacks_in (x : ascii) (s : text) (c : ascii) :
  lacks x s = true -> In c s -> c <> x.
Proof.
  intros H Hin. unfold lacks in H. rewrite forallb_forall in H.
  specialize (H c Hin). now destruct (Ascii.eqb_spec c x).
Qed.

Lemma lacks_app (x : ascii) (a b : text) :
  lacks x (a ++ b) = lacks x a && lacks x b.
Proof. apply forallb_app. Qed.

Lemma no_backtick_in (s : text) (c : ascii) :
  no_backtick s = true -> In c s -> c <> "`"%char.
Proof. apply lacks_in. Qed.

Lemma no_backtick_app (a b : text) :
  no_backtick (a ++ b) = no_backtick a && no_backtick b.
Proof. apply lacks_app. Qed.

Lemma plain_app (a b : text) : plain (a ++ b) = plain a && plain b.
Proof.
  unfold plain. rewrite !lacks_app.
  destruct (lacks star_char a), (lacks star_char b), (lacks tick_char a);
    reflexivity.
Qed.

Local Open Scope Z_scope.

Lemma find_from_skip (x : ascii) (sub a s : text) (i : Z) :
  (forall c, In c a -> c <> x) ->
  Str.find_from (x :: sub) (a ++ s) i
  = Str.find_from (x :: sub) s (i + Z.of_nat (length a)).
Proof.
  revert i. induction a as [|c a IH]; intros i H.
  - simpl. f_equal. lia.
  - cbn [app Str.find_from].
    rewrite startswith_mismatch by (intros E; apply (H c); [now left | now symmetry]).
    rewrite IH by (intros; apply H; now right).
    f_equal. cbn [length]. lia.
Qed.

Lemma find_from_here (sub s : text) (i : Z) :
  Str.startswith sub s = true -> Str.find_from sub s i = i.
Proof. intros H. destruct s; cbn [Str.find_from]; now rewrite H. Qed.

Lemma find_at (sub a s : text) (x : ascii) :
  (forall c, In c a -> c <> x) ->
  Str.find (x :: sub) (a ++ (x :: sub) ++ s) = Z.of_nat (length a).
Proof.
  intros H. unfold Str.find. rewrite find_from_skip by exact H.
  rewrite find_from_here by apply startswith_app. lia.
Qed.

Lemma find_block (x : ascii) (blk a s : text) :
  Str.startswith [x] blk = true -> (forall c, In c a -> c <> x) ->
  Str.find blk (a ++ blk ++ s) = Z.of_nat (length a).
Proof.
  intros Hx Ha. destruct blk as [|y sub]; [discriminate|].
  cbn [Str.startswith] in Hx. apply andb_prop in Hx as [Hx _].
  apply Ascii.eqb_eq in Hx as <-. now apply find_at.
Qed.

Lemma rfind_from_out_of_bound (sub s : text) (lo hi best : Z) :
  forall i, hi < i + Z.of_nat (length sub) ->
    Str.rfind_from sub s lo hi i best = best.
Proof.
  induction s as [|c s IH]; intros i H; cbn [Str.rfind_from].
  - replace (i + Z.of_nat (length sub) <=? hi) with false by lia.
    now rewrite andb_false_r.
  - replace (i + Z.of_nat (length sub) <=? hi) with false by lia.
    rewrite andb_false_r. apply IH. lia.
Qed.

Lemma rfind_from_prefix (sub pre s : text) (lo hi : Z) :
  forall i best, exists best',
    Str.rfind_from sub (pre ++ s) lo hi i best
    = Str.rfind_from sub s lo hi (i + Z.of_nat (length pre)) best'.
Proof.
  induction pre as [|c pre IH]; intros i best.
  - exists best. simpl. f_equal. lia.
  - cbn [app Str.rfind_from].
    destruct (IH (i + 1) (if Str.startswith sub (c :: pre ++ s) && (lo <=? i)
                                 && (i + Z.of_nat (length sub) <=? hi)
                          then i else best)) as [best' ->].
    exists best'. f_equal. cbn [length]. lia.
Qed.

Lemma rfind_from_hit (sub s : text) (c : ascii) (lo hi i best : Z) :
  Str.startswith sub (c :: s) = true ->
  (lo <= i)%Z -> (i + Z.of_nat (length sub) <= hi)%Z ->
  Str.rfind_from sub (c :: s) lo hi i best
  = Str.rfind_from sub s lo hi (i + 1)%Z i.
Proof.
  intros H Hlo Hhi. cbn [Str.rfind_from]. rewrite H.
  replace (lo <=? i)%Z with true by lia.
  now replace (i + Z.of_nat (length sub) <=? hi)%Z with true by lia.
Qed.

(** No blank line starts within [a] when [a] has none and is not followed
    by a line feed. *)
Lemma rfind_from_no_blank (a s : text) (lo hi : Z) :
  Str.contains blank a = false -> not_lf_head s ->
  forall i best,
    Str.rfind_from blank (a ++ s) lo hi i best
    = Str.rfind_from blank s lo hi (i + Z.of_nat (length a)) best.
Proof.
  intros Ha Hs. induction a as [|c a IH]; intros i best.
  - simpl. f_equal. lia.
  - cbn [Str.contains] in Ha. apply orb_false_elim in Ha as [H1 H2].
    cbn [app Str.rfind_from].
    assert (E : Str.startswith blank (c :: a ++ s) = false).
    { destruct a as [|d a].
      - cbn [app]. unfold blank, nl. cbn [app Str.startswith].
        destruct s as [|e s]; [now rewrite andb_false_r|].
        destruct (Ascii.eqb_spec LF e) as [<-|]; [easy|].
        now rewrite andb_false_r.
      - exact H1. }
    rewrite E. cbn [andb]. rewrite (IH H2).
    f_equal. cbn [length]. lia.
Qed.

Lemma clip_in_range (len i : Z) : 0 <= i <= len -> Str.clip len i = i.
Proof. intros H. unfold Str.clip. destruct (Z.ltb_spec i 0); lia. Qed.

Lemma slice_middle (a b c : text) :
  Str.slice (a ++ b ++ c) (Z.of_nat (length a)) (Z.of_nat (length a + length b))
  = b.
Proof.
  unfold Str.slice. rewrite !length_app.
  rewrite !clip_in_range by lia.
  replace (Z.to_nat (Z.of_nat (length a))) with (length a) by lia.
  replace (Z.to_nat (Z.of_nat (length a + length b) - Z.of_nat (length a)))
    with (length b) by lia.
  rewrite skipn_exact by reflexivity. now apply firstn_exact.
Qed.

Local Close Scope Z_scope.

(** A paragraph that is its own stripped form, between line feeds. *)
Section Stripped.

Variable para : text.
Hypothesis para_nonempty : para <> [].
Hypothesis para_stripped : Str.strip para = para.

Lemma stripped_head : exists c r, para = c :: r /\ isspace c = false.
Proof.
  destruct (strip_head para) as [E | (c & r & E & Hc)];
    rewrite para_stripped in E; [easy|].
  now exists c, r.
Qed.

Lemma stripped_last : exists r c, para = r ++ [c] /\ isspace c = false.
Proof.
  destruct (strip_last para) as [E | (r & c & E & Hc)];
    rewrite para_stripped in E; [easy|].
  now exists r, c.
Qed.

Lemma rstrip_stripped : Str.rstrip para = para.
Proof.
  destruct stripped_head as (c & r & E & Hc).
  rewrite <- para_stripped at 2. unfold Str.strip.
  now rewrite E, lstrip_id.
Qed.

Lemma strip_between_newlines : Str.strip (blank ++ para ++ nl) = para.
Proof.
  destruct stripped_head as (c & r & E & Hc).
  unfold Str.strip. unfold blank, nl. cbn [app].
  change (Str.lstrip (LF :: LF :: para ++ [LF])) with (Str.lstrip (para ++ [LF])).
  rewrite E. cbn [app]. rewrite lstrip_id by exact Hc.
  rewrite <- E. change (c :: r ++ [LF]) with ((c :: r) ++ [LF]). rewrite <- E.
  unfold Str.rstrip. rewrite rev_app_distr.
  change (Str.lstrip (rev [LF] ++ rev para)) with (Str.lstrip (rev para)).
  apply rstrip_stripped.
Qed.

Lemma no_blank_with_newline :
  Str.contains blank para = false -> Str.contains blank (para ++ nl) = false.
Proof.
  destruct stripped_last as (r & c & E & Hc). rewrite E. clear E.
  assert (Hlf : LF <> c) by (intros <-; discriminate).
  unfold blank, nl. cbn [app].
  induction r as [|d r IH]; intros H.
  - cbn [app Str.contains].
    now rewrite startswith_mismatch by exact Hlf.
  - cbn [app Str.contains] in *. apply orb_false_elim in H as [H1 H2].
    rewrite (IH H2), orb_false_r.
    destruct r as [|e r]; cbn [app] in *; [|exact H1].
    cbn [Str.startswith]. destruct (Ascii.eqb_spec LF c); [easy|].
    now rewrite andb_false_r.
Qed.

Lemma no_blank_between_newlines :
  Str.contains blank para = false ->
  Str.contains blank (nl ++ para ++ nl) = false.
Proof.
  intros H. unfold nl at 1. cbn [app Str.contains].
  rewrite (no_blank_with_newline H), orb_false_r.
  destruct stripped_head as (c & r & E & Hc). rewrite E.
  assert (Hlf : LF <> c) by (intros <-; discriminate).
  unfold blank, nl. cbn [app Str.startswith].
  destruct (Ascii.eqb_spec LF c); [easy|].
  now rewrite andb_false_r.
Qed.

End Stripped.

(** ** Loops that may raise *)

(** What holds before a loop and is kept by every iteration that does
    not raise holds of the result of the loop. *)
Lemma foldM_invariant {A B : Type} (P : A -> Prop) (f : A -> B -> result A) :
  (forall a b a', P a -> f a b = Ok a' -> P a') ->
  forall (l : list B) (a r : A), P a -> foldM f l a = Ok r -> P r.
Proof.
  intros Hf. induction l as [|b l IH]; simpl; intros a r Ha H.
  - now injection H as <-.
  - destruct (f a b) as [a'|e] eqn:E; simpl in H; [|discriminate].
    exact (IH a' r (Hf a b a' Ha E) H).
Qed.

(** ** The matcher *)

Section MatcherFacts.

Context {A : Type}.
Implicit Types (k : @Re.kont A) (p : ascii -> bool).

Lemma prev_after_app (prev : option ascii) (a b : text) :
  prev_after prev (a ++ b) = prev_after (prev_after prev a) b.
Proof. apply fold_left_app. Qed.

Lemma lit_app (l : text) k n prev s g :
  Re.lit l k n prev (l ++ s) g = k (n + length l) (prev_after prev l) s g.
Proof.
  revert n prev. induction l as [|a l IH]; intros n prev; simpl.
  - now rewrite Nat.add_0_r.
  - rewrite Ascii.eqb_refl, IH. f_equal. lia.
Qed.

Lemma lit_mismatch (a c : ascii) (l s : text) k n prev g :
  a <> c -> Re.lit (a :: l) k n prev (c :: s) g = None.
Proof.
  intros H. simpl. now destruct (Ascii.eqb_spec a c).
Qed.

Lemma star_stops p k n prev (s : text) g :
  match s with [] => True | c :: _ => p c = false end ->
  Re.star p k n prev s g = k n prev s g.
Proof. destruct s as [|c s]; simpl; [easy|]. now intros ->. Qed.

(** A greedy repetition takes the whole run when the continuation
    accepts after it. *)
Lemma star_run p k n prev (run s : text) g (a : A) :
  forallb p run = true ->
  match s with [] => True | c :: _ => p c = false end ->
  k (n + length run) (prev_after prev run) s g = Some a ->
  Re.star p k n prev (run ++ s) g = Some a.
Proof.
  revert n prev. induction run as [|c run IH]; simpl; intros n prev Hp Hs Hk.
  - rewrite star_stops by exact Hs. now rewrite Nat.add_0_r in Hk.
  - apply andb_prop in Hp as [Hc Hp]. rewrite Hc.
    rewrite (IH (S n) (Some c)); auto.
    now replace (S n + length run) with (n + S (length run)) by lia.
Qed.

(** A repetition never fails before a continuation that never fails. *)
Lemma star_total p k n prev (s : text) g :
  (forall n' prev' s' g', k n' prev' s' g' <> None) ->
  Re.star p k n prev s g <> None.
Proof.
  intros Hk. revert n prev. induction s as [|c s IH]; intros n prev; simpl.
  - apply Hk.
  - destruct (p c); [|apply Hk].
    destruct (Re.star p k (S n) (Some c) s g) eqn:E; [discriminate|].
    now apply IH in E.
Qed.

(** A lazy repetition passes over the characters before which the
    continuation fails. *)
Lemma lazy_star_run p k n prev (run s : text) g :
  forallb p run = true ->
  (forall c s' n' prev' g', In c run -> k n' prev' (c :: s') g' = None) ->
  Re.lazy_star p k n prev (run ++ s) g
  = Re.lazy_star p k (n + length run) (prev_after prev run) s g.
Proof.
  revert n prev. induction run as [|c run IH]; intros n prev Hp Hk.
  - simpl. now rewrite Nat.add_0_r.
  - simpl in Hp. apply andb_prop in Hp as [Hc Hp].
    cbn [app Re.lazy_star]. rewrite Hk by now left. rewrite Hc.
    rewrite IH; auto.
    + simpl. f_equal. lia.
    + intros; apply Hk. now right.
Qed.

Lemma lazy_star_accept p k n prev (s : text) g (a : A) :
  k n prev s g = Some a -> Re.lazy_star p k n prev s g = Some a.
Proof. intros H. destruct s; simpl; now rewrite H. Qed.

End MatcherFacts.

Section Inversion.

Context {A : Type}.
Implicit Types (k : @Re.kont A) (p : ascii -> bool).

Lemma lit_inv (l : text) k n prev (s : text) g (a : A) :
  Re.lit l k n prev s g = Some a ->
  exists s', s = l ++ s' /\ k (n + length l) (prev_after prev l) s' g = Some a.
Proof.
  revert n prev s. induction l as [|x l IH]; intros n prev s H.
  - exists s. simpl in *. now rewrite Nat.add_0_r.
  - cbn [Re.lit] in H. destruct s as [|c s]; [discriminate|].
    destruct (Ascii.eqb_spec x c) as [<-|]; [|discriminate].
    apply IH in H as (s' & -> & H). exists s'. split; [reflexivity|].
    cbn [length prev_after fold_left].
    now replace (n + S (length l)) with (S n + length l) by lia.
Qed.

Lemma star_inv p k n prev (s : text) g (a : A) :
  Re.star p k n prev s g = Some a ->
  exists run s', s = run ++ s' /\ forallb p run = true /\
    k (n + length run) (prev_after prev run) s' g = Some a.
Proof.
  revert n prev. induction s as [|c s IH]; intros n prev H.
  - exists [], []. simpl in *. now rewrite Nat.add_0_r.
  - cbn [Re.star] in H.
    assert (Hstop : k n prev (c :: s) g = Some a ->
              exists run s', c :: s = run ++ s' /\ forallb p run = true /\
                k (n + length run) (prev_after prev run) s' g = Some a).
    { intros Hk. exists [], (c :: s). simpl. now rewrite Nat.add_0_r. }
    destruct (p c) eqn:Hc; [|now apply Hstop].
    destruct (Re.star p k (S n) (Some c) s g) as [a'|] eqn:E;
      [|now apply Hstop].
    injection H as ->. apply IH in E as (run & s' & -> & Hrun & Hk).
    exists (c :: run), s'. split; [reflexivity|]. split.
    + simpl. now rewrite Hc.
    + cbn [length prev_after fold_left].
      now replace (n + S (length run)) with (S n + length run) by lia.
Qed.

Lemma lazy_star_inv p k n prev (s : text) g (a : A) :
  Re.lazy_star p k n prev s g = Some a ->
  exists run s', s = run ++ s' /\ forallb p run = true /\
    k (n + length run) (prev_after prev run) s' g = Some a.
Proof.
  revert n prev. induction s as [|c s IH]; intros n prev H.
  - exists [], []. simpl in *. rewrite Nat.add_0_r.
    now destruct (k n prev [] g).
  - cbn [Re.lazy_star] in H.
    destruct (k n prev (c :: s) g) as [a'|] eqn:E.
    + injection H as ->. exists [], (c :: s). simpl.
      now rewrite Nat.add_0_r.
    + destruct (p c) eqn:Hc; [|discriminate].
      apply IH in H as (run & s' & -> & Hrun & Hk).
      exists (c :: run), s'. split; [reflexivity|]. split.
      * simpl. now rewrite Hc.
      * cbn [length prev_after fold_left].
        now replace (n + S (length run)) with (S n + length run) by lia.
Qed.

End Inversion.

Section AnchorFree.

Context {A : Type}.
Implicit Types (k : @Re.kont A).

Lemma lit_prev (l : text) k1 k2 :
  same_kont k1 k2 -> same_kont (Re.lit l k1) (Re.lit l k2).
Proof.
  intros H. induction l as [|a l IH]; intros n p1 p2 s g; simpl.
  - apply H.
  - destruct s as [|c s]; [reflexivity|].
    destruct (a =? c)%char; [apply IH|reflexivity].
Qed.

Lemma star_prev p k1 k2 :
  same_kont k1 k2 -> same_kont (Re.star p k1) (Re.star p k2).
Proof.
  intros H n p1 p2 s g. revert n p1 p2.
  induction s as [|c s IH]; intros n p1 p2; simpl.
  - apply H.
  - destruct (p c); [|apply H].
    rewrite (IH (S n) (Some c) (Some c)).
    destruct (Re.star p k2 _ _ _ _); [reflexivity|apply H].
Qed.

Lemma lazy_star_prev p k1 k2 :
  same_kont k1 k2 -> same_kont (Re.lazy_star p k1) (Re.lazy_star p k2).
Proof.
  intros H n p1 p2 s g. revert n p1 p2.
  induction s as [|c s IH]; intros n p1 p2; simpl.
  - now rewrite (H n p1 p2).
  - rewrite (H n p1 p2). destruct (k2 n p2 (c :: s) g); [reflexivity|].
    destruct (p c); [apply IH|reflexivity].
Qed.

End AnchorFree.

Lemma rmatch_prev {A : Type} (r : Re.regex) :
  anchor_free r = true ->
  forall k1 k2 : @Re.kont A, same_kont k1 k2 ->
    same_kont (Re.rmatch r k1) (Re.rmatch r k2).
Proof.
  induction r as [l| | |p|p|p|i r IH|r1 IH1 r2 IH2|r1 IH1 r2 IH2];
    simpl; intros Hr k1 k2 Hk; try discriminate.
  - now apply lit_prev.
  - now apply star_prev.
  - intros n p1 p2 s g. simpl. destruct s as [|c s]; [reflexivity|].
    destruct (p c); [now apply star_prev|reflexivity].
  - now apply lazy_star_prev.
  - intros n p1 p2 s g. simpl. apply IH; [exact Hr|].
    intros n' q1 q2 s' g'. apply Hk.
  - apply andb_prop in Hr as [H1 H2].
    intros n p1 p2 s g. simpl. apply IH1; [exact H1|].
    intros n' q1 q2 s' g'. now apply IH2.
  - apply andb_prop in Hr as [H1 H2].
    intros n p1 p2 s g. simpl.
    rewrite (IH1 H1 k1 k2 Hk n p1 p2).
    destruct (Re.rmatch r1 k2 n p2 s g); [reflexivity|].
    now apply IH2.
Qed.

Lemma rmatch_through {A : Type} (r : Re.regex) :
  forall (k : @Re.kont A) n prev s g (a : A),
    Re.rmatch r k n prev s g = Some a ->
    exists n' prev' s' g',
      n <= n' /\ (consumes r = true -> n < n') /\ k n' prev' s' g' = Some a.
Proof.
  induction r as [l| | |p|p|p|i r IH|r1 IH1 r2 IH2|r1 IH1 r2 IH2];
    intros k n prev s g a H; cbn [Re.rmatch consumes] in *.
  - apply lit_inv in H as (s' & -> & H).
    exists (n + length l), (prev_after prev l), s', g.
    repeat split; [lia| |exact H]. destruct l; [discriminate|simpl; lia].
  - destruct (Re.at_bol prev); [|discriminate].
    exists n, prev, s, g. repeat split; [lia|discriminate|exact H].
  - destruct (Re.at_eol s); [|discriminate].
    exists n, prev, s, g. repeat split; [lia|discriminate|exact H].
  - apply star_inv in H as (run & s' & -> & _ & H).
    exists (n + length run), (prev_after prev run), s', g.
    repeat split; [lia|discriminate|exact H].
  - destruct s as [|c s]; [discriminate|].
    destruct (p c); [|discriminate].
    apply star_inv in H as (run & s' & -> & _ & H).
    exists (S n + length run), (prev_after (Some c) run), s', g.
    repeat split; [lia|lia|exact H].
  - apply lazy_star_inv in H as (run & s' & -> & _ & H).
    exists (n + length run), (prev_after prev run), s', g.
    repeat split; [lia|discriminate|exact H].
  - apply IH in H as (n' & prev' & s' & g' & Hle & Hlt & H).
    now exists n', prev', s', ((i, firstn (n' - n) s) :: g').
  - apply IH1 in H as (n1 & prev1 & s1 & g1 & Hle1 & Hlt1 & H).
    apply IH2 in H as (n2 & prev2 & s2 & g2 & Hle2 & Hlt2 & H).
    exists n2, prev2, s2, g2. repeat split; [lia| |exact H].
    intros Hc. apply orb_prop in Hc as [Hc|Hc]; [apply Hlt1 in Hc|apply Hlt2 in Hc];
      lia.
  - destruct (Re.rmatch r1 k n prev s g) as [a'|] eqn:E.
    + injection H as ->.
      apply IH1 in E as (n' & prev' & s' & g' & Hle & Hlt & H).
      exists n', prev', s', g'. repeat split; [lia| |exact H].
      intros Hc. apply andb_prop in Hc as [Hc _]. auto.
    + apply IH2 in H as (n' & prev' & s' & g' & Hle & Hlt & H).
      exists n', prev', s', g'. repeat split; [lia| |exact H].
      intros Hc. apply andb_prop in Hc as [_ Hc]. auto.
Qed.

Lemma match_never_empty (r : Re.regex) (prev : option ascii) (s : text)
  (n : nat) (g : Re.groups) :
  consumes r = true -> Re.match_at r prev s = Some (n, g) -> 0 < n.
Proof.
  intros Hc H. unfold Re.match_at in H.
  apply rmatch_through in H as (n' & prev' & s' & g' & _ & Hlt & H).
  injection H as <- _. auto.
Qed.

(** The patterns given to [split] and [findall] all consume. *)
Lemma scanned_patterns_consume :
  consumes h2_re = true /\ consumes code_block_re = true /\
  consumes paragraph_re = true /\ consumes highlight_re = true.
Proof. repeat split. Qed.

(** ** Searching and scanning with a pattern *)

Section SearchFacts.

Variable r : Re.regex.

(** The search succeeds when the pattern matches somewhere. *)
Lemma search_from_finds (pre s : text) :
  forall prev before,
    Re.match_at r (prev_after prev pre) s <> None ->
    Re.search_from r prev before (pre ++ s) <> None.
Proof.
  induction pre as [|c pre IH]; intros prev before H.
  - simpl in *. destruct s; simpl;
      destruct (Re.match_at r prev _) as [[n g]|]; easy.
  - cbn [app Re.search_from].
    destruct (Re.match_at r prev (c :: pre ++ s)) as [[n g]|]; [easy|].
    now apply IH.
Qed.

(** The search passes over the positions where the pattern does not
    match. *)
Lemma search_from_skip (pre s : text) :
  (forall c prev s', In c pre -> Re.match_at r prev (c :: s') = None) ->
  forall prev before,
    Re.search_from r prev before (pre ++ s)
    = Re.search_from r (prev_after prev pre) (rev pre ++ before) s.
Proof.
  induction pre as [|c pre IH]; intros H prev before.
  - reflexivity.
  - cbn [app Re.search_from]. rewrite H by now left.
    rewrite IH by (intros; apply H; now right).
    simpl. now rewrite <- app_assoc.
Qed.

Lemma scan_skip (a s : text) :
  forall prev gap,
    Re.scan r (length a) prev gap (a ++ s)
    = Re.scan r 0 (prev_after prev a) gap s.
Proof.
  induction a as [|c a IH]; intros prev gap.
  - reflexivity.
  - simpl. apply IH.
Qed.

Lemma scan_no_match (pre s : text) :
  (forall c prev s', In c pre -> Re.match_at r prev (c :: s') = None) ->
  forall prev gap,
    Re.scan r 0 prev gap (pre ++ s)
    = Re.scan r 0 (prev_after prev pre) (rev pre ++ gap) s.
Proof.
  induction pre as [|c pre IH]; intros H prev gap.
  - reflexivity.
  - cbn [app Re.scan]. rewrite H by now left.
    rewrite IH by (intros; apply H; now right).
    simpl. now rewrite <- app_assoc.
Qed.

Lemma scan_match (c : ascii) (s : text) (k : nat) (g : Re.groups) prev gap :
  Re.match_at r prev (c :: s) = Some (S k, g) ->
  Re.scan r 0 prev gap (c :: s)
  = Re.Found (rev gap) (firstn (S k) (c :: s)) g (Re.scan r k (Some c) [] s).
Proof. intros H. cbn [Re.scan]. now rewrite H. Qed.

End SearchFacts.

(** The search returns the text it has passed and the text it has left. *)
Lemma search_from_split (r : Re.regex) (s : text) :
  forall prev acc before n g rest,
    Re.search_from r prev acc s = Some (before, n, g, rest) ->
    exists mid, before = rev acc ++ mid /\ s = mid ++ rest.
Proof.
  induction s as [|c s IH]; intros prev acc before n g rest H;
    cbn [Re.search_from] in H.
  - destruct (Re.match_at r prev []) as [[n' g']|]; [|discriminate].
    injection H as <- _ _ <-. exists []. now rewrite app_nil_r.
  - destruct (Re.match_at r prev (c :: s)) as [[n' g']|].
    + injection H as <- _ _ <-. exists []. now rewrite app_nil_r.
    + apply IH in H as (mid & -> & ->). exists (c :: mid).
      simpl. now rewrite <- app_assoc.
Qed.

(** The leftmost occurrence of a literal, after text without its first
    character. *)
Lemma search_literal (x : ascii) (l a rest : text) :
  lacks x a = true ->
  Re.search_from (Re.Lit (x :: l)) None [] (a ++ (x :: l) ++ rest)
  = Some (a, length (x :: l), [], (x :: l) ++ rest).
Proof.
  intros Ha. rewrite search_from_skip.
  2:{ intros c prev s' Hin. unfold Re.match_at. cbn [Re.rmatch].
      apply lit_mismatch. intros E. now apply (lacks_in x a c Ha Hin). }
  assert (E : Re.match_at (Re.Lit (x :: l)) (prev_after None a) ((x :: l) ++ rest)
              = Some (length (x :: l), [])).
  { unfold Re.match_at. cbn [Re.rmatch]. now rewrite lit_app. }
  destruct ((x :: l) ++ rest) eqn:Es; cbn [Re.search_from]; rewrite E;
    now rewrite app_nil_r, rev_involutive.
Qed.

Lemma scan_match_app (r : Re.regex) (m s : text) (g : Re.groups) prev gap :
  m <> [] -> Re.match_at r prev (m ++ s) = Some (length m, g) ->
  Re.scan r 0 prev gap (m ++ s)
  = Re.Found (rev gap) m g (Re.scan r 0 (prev_after prev m) [] s).
Proof.
  intros Hm H. destruct m as [|c m]; [easy|].
  cbn [app length] in *. rewrite (scan_match r c (m ++ s) (length m) g); auto.
  f_equal.
  - apply (firstn_exact (c :: m) s). reflexivity.
  - apply (scan_skip r m s).
Qed.

Lemma scan_prev (r : Re.regex) :
  anchor_free r = true ->
  forall (s : text) skip p1 p2 gap,
    Re.scan r skip p1 gap s = Re.scan r skip p2 gap s.
Proof.
  intros Hr. induction s as [|c s IH]; intros skip p1 p2 gap.
  - now destruct skip.
  - destruct skip as [|k]; cbn [Re.scan]; [|apply IH].
    unfold Re.match_at.
    rewrite (rmatch_prev r Hr (fun n _ _ g => Some (n, g))
               (fun n _ _ g => Some (n, g)) (fun _ _ _ _ _ => eq_refl) 0 p1 p2).
    reflexivity.
Qed.

(** Every pair [findall] returns comes from a match somewhere in the
    text. *)
Lemma findall_sound (r : Re.regex) (s : text) :
  forall (before : text) skip prev gap (x y : text),
    In (x, y) (Re.pairs_of (Re.scan r skip prev gap s)) ->
    exists a b prev' n g,
      before ++ s = a ++ b /\ Re.match_at r prev' b = Some (n, g) /\
      x = Re.group_text 1 g /\ y = Re.group_text 2 g.
Proof.
  induction s as [|c s IH]; intros before skip prev gap x y H.
  - destruct skip; contradiction.
  - assert (Hnext : forall skip' gap',
              In (x, y) (Re.pairs_of (Re.scan r skip' (Some c) gap' s)) ->
              exists a b prev' n g,
                before ++ c :: s = a ++ b /\
                Re.match_at r prev' b = Some (n, g) /\
                x = Re.group_text 1 g /\ y = Re.group_text 2 g).
    { intros skip' gap' Hin.
      destruct (IH (before ++ [c]) skip' (Some c) gap' x y Hin)
        as (a & b & prev' & n & g & E & Hm & Hx & Hy).
      exists a, b, prev', n, g. rewrite <- app_assoc in E. now repeat split. }
    destruct skip as [|k]; cbn [Re.scan] in H; [|now apply (Hnext k gap)].
    destruct (Re.match_at r prev (c :: s)) as [[[|k] g]|] eqn:E;
      try now apply (Hnext 0 (c :: gap)).
    cbn [Re.pairs_of] in H. destruct H as [H | H]; [|now apply (Hnext k [])].
    injection H as <- <-.
    now exists before, (c :: s), prev, (S k), g.
Qed.

(** [re.split] returns at least one piece. *)
Lemma split_never_empty (r : Re.regex) (ngroups : nat) (s : text) :
  Re.split r ngroups s <> [].
Proof.
  unfold Re.split. now destruct (Re.finditer r s).
Qed.

(** ** Format detector *)

Lemma at_line_start_bol (pre : text) :
  at_line_start pre -> Re.at_bol (prev_after None pre) = true.
Proof.
  intros [-> | [p ->]]; [reflexivity|].
  now rewrite prev_after_app.
Qed.

Lemma h2_start_matches (prev : option ascii) (w : ascii) (post : text) :
  Re.at_bol prev = true -> isspace w = true ->
  Re.match_at h2_start_re prev ("##" ++ w :: post) <> None.
Proof.
  intros Hb Hw. unfold Re.match_at, h2_start_re.
  cbn [Re.rmatch]. rewrite Hb.
  rewrite (lit_app "##"). cbn [app]. rewrite Hw.
  now apply star_total.
Qed.

(** Where the lines of a document lie in it: the first one at its start,
    every other one after a line feed. *)
Lemma split_lines_positions (s : text) :
  match Str.split LF s with
  | [] => False
  | l :: ls =>
      (exists post, s = l ++ post) /\
      forall line, In line ls -> exists p post, s = (p ++ nl) ++ line ++ post
  end.
Proof.
  induction s as [|c s IH]; cbn [Str.split].
  - split; [now exists []|intros line []].
  - destruct (Str.split LF s) as [|l ls]; [easy|].
    destruct IH as [[post Hl] Hls].
    destruct (Ascii.eqb_spec c LF) as [->|Hc].
    + split; [now exists (LF :: s)|].
      intros line [<-|Hin].
      * exists [], post. now rewrite Hl at 1.
      * destruct (Hls line Hin) as (p & post' & E).
        exists (LF :: p), post'. now rewrite E at 1.
    + split; [exists post; now rewrite Hl at 1|].
      intros line Hin. destruct (Hls line Hin) as (p & post' & E).
      exists (c :: p), post'. now rewrite E at 1.
Qed.

Lemma line_at_line_start (md line : text) :
  In line (Str.split LF md) ->
  exists pre post, at_line_start pre /\ md = pre ++ line ++ post.
Proof.
  intros Hin. pose proof (split_lines_positions md) as H.
  destruct (Str.split LF md) as [|l ls]; [easy|].
  destruct H as [[post Hl] Hls]. destruct Hin as [<-|Hin].
  - exists [], post. split; [now left|exact Hl].
  - destruct (Hls line Hin) as (p & post' & E).
    exists (p ++ nl), post'. split; [right; now exists p|exact E].
Qed.

Lemma detect_sections_at (pre post : text) (w : ascii) :
  at_line_start pre -> isspace w = true ->
  detect_card_format (pre ++ "##" ++ w :: post) = sections.
Proof.
  intros Hpre Hw. unfold detect_card_format, Re.search.
  destruct (Re.search_from h2_start_re None [] (pre ++ "##" ++ w :: post))
    eqn:E; [reflexivity|].
  exfalso. revert E. apply search_from_finds.
  apply h2_start_matches; [now apply at_line_start_bol | exact Hw].
Qed.

(** C6.  A document one of whose lines begins with [##] followed by a
    white-space character is detected as [sections], whatever else it
    contains; and so is every document where [##] stands at the start of
    a line and is followed by a white-space character, which may be the
    line feed that ends the line. *)
Theorem h2_header_detected_as_sections (md line rest pre post : text)
  (w : ascii) :
  In line (Str.split LF md) -> line = "##" ++ w :: rest ->
  isspace w = true -> at_line_start pre ->
  detect_card_format md = sections /\
  detect_card_format (pre ++ "##" ++ w :: post) = sections.
Proof.
  intros Hin Hline Hw Hpre. split; [|now apply detect_sections_at].
  destruct (line_at_line_start md line Hin) as (before & after & Hb & ->).
  rewrite Hline. cbn [app]. rewrite <- app_assoc.
  now apply (detect_sections_at before (rest ++ after) w).
Qed.

(** The header [## Title] after bullets, a fenced block and highlighted
    spans. *)
Lemma h2_header_detected_as_sections_witness :
  detect_card_format (mixed_example_pre ++ "## Title") = sections /\
  detect_card_format (mixed_example_pre ++ "##" ++ " "%char :: "Title") = sections.
Proof.
  refine (h2_header_detected_as_sections (mixed_example_pre ++ "## Title")
            "## Title" "Title" mixed_example_pre "Title" " " _ _ _ _).
  - vm_compute. do 6 right. left. reflexivity.
  - reflexivity.
  - reflexivity.
  - right. eexists. unfold mixed_example_pre. rewrite !app_assoc. reflexivity.
Defined.

(** ** Section extractor *)

(** C3 (code evaluated at a document with a preamble).  On
    ["intro\n## A\nbody1\n## B\nbody2"] the preamble is kept as the first
    element, so that it becomes the front of the first card and every pair
    is shifted: the cards are [("intro","A")] and [("body1","B")], not
    [("A","body1")] and [("B","body2")]; without the preamble the same
    headers give the pairs of header and body. *)
Theorem sections_preamble_becomes_card :
  parse_markdown_h2_sections preamble_example
  = [mk_card "intro" "A"; mk_card "body1" "B"] /\
  parse_markdown_h2_sections
    ("## A" ++ nl ++ "body1" ++ nl ++ "## B" ++ nl ++ "body2")
  = [mk_card "A" "body1"; mk_card "B" "body2"].
Proof. split; reflexivity. Qed.

(** ** Bullet extractor *)

(** C1 (code evaluated at the documented example).  On
    ["- Q1\n  - A1\n  - A2\n- Q2"] the bullet extractor returns no card at
    all: the card [("Q1", "A1\nA2")] the description promises is not
    produced. *)
Theorem bullet_example_no_card :
  parse_markdown_bullet_points bullet_example = [] /\
  ~ In (mk_card "Q1" ("A1" ++ nl ++ "A2")) (parse_markdown_bullet_points bullet_example).
Proof.
  assert (E : parse_markdown_bullet_points bullet_example = []) by reflexivity.
  split; [exact E|]. rewrite E. intros [].
Qed.

(** The test of the sub-bullet branch fails on every stripped line. *)
Lemma sub_bullet_test_false (raw : text) :
  Str.startswith "  - " (Str.strip raw) || Str.startswith "  * " (Str.strip raw)
  = false.
Proof.
  change (list_ascii_of_string "  - ") with (" "%char :: list_ascii_of_string " - ").
  change (list_ascii_of_string "  * ") with (" "%char :: list_ascii_of_string " * ").
  now rewrite !startswith_space_stripped.
Qed.

Lemma bullet_flush_no_answer (st : bullet_state) :
  current_answer st = [] -> bullet_flush st = cards st.
Proof.
  intros H. unfold bullet_flush. rewrite H. simpl.
  destruct (current_question st); [|reflexivity].
  now rewrite andb_false_r.
Qed.

Lemma bullet_step_no_answer (st : bullet_state) (raw : text) :
  cards st = [] -> current_answer st = [] ->
  cards (bullet_step st raw) = [] /\ current_answer (bullet_step st raw) = [].
Proof.
  intros Hc Ha. unfold bullet_step.
  rewrite sub_bullet_test_false.
  destruct (negb (truthy (Str.strip raw))); [now split|].
  destruct (_ || _); simpl; [|now split].
  split; [|reflexivity].
  now rewrite bullet_flush_no_answer.
Qed.

Lemma bullet_fold_no_answer (lines : list text) (st : bullet_state) :
  cards st = [] -> current_answer st = [] ->
  cards (fold_left bullet_step lines st) = [] /\
  current_answer (fold_left bullet_step lines st) = [].
Proof.
  revert st. induction lines as [|l lines IH]; intros st Hc Ha; simpl.
  - now split.
  - destruct (bullet_step_no_answer st l Hc Ha) as [Hc' Ha'].
    now apply IH.
Qed.

(** C2.  The bullet extractor returns the empty card list on every
    document: on a stripped line the sub-bullet test never holds, so the
    loop never accumulates an answer line, whatever the lines are, and the
    final flush adds nothing. *)
Theorem bullet_extractor_always_empty (md_content : text) :
  (forall raw : text,
      Str.startswith "  - " (Str.strip raw) = false /\
      Str.startswith "  * " (Str.strip raw) = false) /\
  (forall lines : list text, current_answer (bullet_loop lines) = []) /\
  parse_markdown_bullet_points md_content = [].
Proof.
  split; [|split].
  - intros raw. apply orb_false_elim, sub_bullet_test_false.
  - intros lines. now apply bullet_fold_no_answer.
  - unfold parse_markdown_bullet_points.
    destruct (bullet_fold_no_answer (Str.split LF md_content) bullet_init
                eq_refl eq_refl) as [Hc Ha].
    unfold bullet_loop. now rewrite bullet_flush_no_answer.
Qed.

(** ** Code-block extractor: the blocks the pattern recognizes *)

Lemma forallb_any (s : text) : forallb Re.any s = true.
Proof. now induction s. Qed.

Lemma fence_cons : fence = "`"%char :: "``".
Proof. reflexivity. Qed.

Lemma code_block_match (prev : option ascii) (lang code0 rest : text) :
  lang <> [] -> forallb isword lang = true -> no_backtick code0 = true ->
  Re.match_at code_block_re prev (fence ++ lang ++ nl ++ code0 ++ fence ++ rest)
  = Some (length (fence ++ lang ++ nl ++ code0 ++ fence), [(2, code0); (1, lang)]).
Proof.
  intros Hne Hw Hc.
  destruct lang as [|l0 lang]; [easy|]. simpl in Hw.
  apply andb_prop in Hw as [Hl0 Hw].
  unfold Re.match_at, code_block_re. cbn [Re.rmatch].
  rewrite (lit_app fence). cbn [app]. rewrite Hl0.
  apply star_run; [exact Hw|reflexivity|]. cbn beta.
  rewrite (lit_app nl). rewrite lazy_star_run.
  - apply lazy_star_accept. rewrite (lit_app fence).
    f_equal. f_equal.
    + len.
    + f_equal; [f_equal; apply firstn_exact; len|].
      f_equal. f_equal.
      change (l0 :: lang ++ nl ++ code0 ++ fence ++ rest)
        with ((l0 :: lang) ++ nl ++ code0 ++ fence ++ rest).
      apply firstn_exact. len.
  - apply forallb_any.
  - intros c s' n' prev' g' Hin. apply lit_mismatch.
    intros <-. now apply (no_backtick_in code0 "`"%char Hc).
Qed.

Lemma code_block_no_match (prev : option ascii) (c : ascii) (s : text) :
  c <> "`"%char -> Re.match_at code_block_re prev (c :: s) = None.
Proof.
  intros H. unfold Re.match_at, code_block_re. cbn [Re.rmatch].
  apply lit_mismatch. congruence.
Qed.

(** Every match of the pattern is an opening fence, a language word, a
    line feed, some text and a closing fence. *)
Lemma code_block_match_inv (prev : option ascii) (s : text) (n : nat)
  (g : Re.groups) :
  Re.match_at code_block_re prev s = Some (n, g) ->
  exists lang code0 rest,
    s = fence ++ lang ++ nl ++ code0 ++ fence ++ rest /\
    lang <> [] /\ forallb isword lang = true /\
    g = [(2, code0); (1, lang)].
Proof.
  unfold Re.match_at, code_block_re. cbn [Re.rmatch]. intros H.
  apply lit_inv in H as (s1 & -> & H).
  destruct s1 as [|c s1]; [discriminate|].
  destruct (isword c) eqn:Hc; [|discriminate].
  apply star_inv in H as (run & s2 & -> & Hrun & H). cbn beta in H.
  apply lit_inv in H as (s3 & -> & H).
  apply lazy_star_inv in H as (code0 & s4 & -> & _ & H). cbn beta in H.
  apply lit_inv in H as (rest & -> & H).
  injection H as _ <-.
  exists (c :: run), code0, rest.
  split; [reflexivity|]. split; [discriminate|]. split.
  - simpl. now rewrite Hc.
  - rewrite !firstn_exact by lia. reflexivity.
Qed.

Lemma block_assoc (lang code0 post : text) :
  fence ++ lang ++ nl ++ code0 ++ fence ++ post
  = (fence ++ lang ++ nl ++ code0 ++ fence) ++ post.
Proof. now rewrite <- !app_assoc. Qed.

(** The first block of a document, and the scan after it. *)
Lemma findall_code_block (pre lang code0 post : text) :
  no_backtick pre = true ->
  lang <> [] -> forallb isword lang = true -> no_backtick code0 = true ->
  Re.findall2 code_block_re
    (pre ++ fence ++ lang ++ nl ++ code0 ++ fence ++ post)
  = (lang, code0) :: Re.findall2 code_block_re post.
Proof.
  intros Hpre Hne Hw Hc. unfold Re.findall2, Re.finditer.
  rewrite scan_no_match.
  2:{ intros c prev s' Hin. apply code_block_no_match.
      now apply (no_backtick_in pre). }
  rewrite block_assoc.
  rewrite (scan_match_app code_block_re _ post [(2, code0); (1, lang)]).
  - cbn [Re.pairs_of]. f_equal. f_equal. now apply scan_prev.
  - discriminate.
  - rewrite <- block_assoc. now apply code_block_match.
Qed.

Lemma findall_no_backtick (s : text) :
  no_backtick s = true -> Re.findall2 code_block_re s = [].
Proof.
  intros H. unfold Re.findall2, Re.finditer.
  rewrite <- (app_nil_r s). rewrite scan_no_match.
  - reflexivity.
  - intros c prev s' Hin. apply code_block_no_match.
    now apply (no_backtick_in s).
Qed.

(** C9 (counterexample).  A closing fence in the middle of a line, with
    text after it, closes the block: the block is recognized and gives a
    card. *)
Lemma inline_closing_fence_is_recognized :
  Re.findall2 code_block_re inline_fence_example = [("py" : text, "x = 1 " : text)] /\
  parse_markdown_code_blocks inline_fence_example
  = [mk_card ("What does this py code do?" ++ nl ++ "```py" ++ nl ++ "x = 1"
                ++ nl ++ "```") "Example:"].
Proof. split; reflexivity. Qed.

Lemma startswith_split (p s : text) :
  Str.startswith p s = true -> s = p ++ skipn (length p) s.
Proof.
  revert s. induction p as [|a p IH]; intros s H; [reflexivity|].
  destruct s as [|b s]; [discriminate|]. cbn [Str.startswith] in H.
  apply andb_prop in H as [E H]. apply Ascii.eqb_eq in E. subst b.
  cbn [length skipn app]. f_equal. now apply IH.
Qed.

Lemma lit_fails {A : Type} (l : text) (k : @Re.kont A) n prev (s : text) g :
  Str.startswith l s = false -> Re.lit l k n prev s g = None.
Proof.
  revert n prev s. induction l as [|a l IH]; intros n prev s H; [discriminate|].
  destruct s as [|b s]; [reflexivity|]. cbn [Str.startswith] in H.
  cbn [Re.lit]. destruct (a =? b)%char; [|reflexivity].
  now apply IH.
Qed.

Lemma word_run_split (s : text) :
  s = fst (word_run s) ++ snd (word_run s) /\
  forallb isword (fst (word_run s)) = true.
Proof.
  induction s as [|c s [IH1 IH2]]; [now split|]. cbn [word_run].
  destruct (isword c) eqn:Hc; [|now split].
  destruct (word_run s) as [w rest]. cbn [fst snd] in *.
  split; [now rewrite IH1 at 1|]. cbn [forallb]. now rewrite Hc.
Qed.

(** A greedy run of word characters before a continuation that refuses
    a word character takes the longest run. *)
Lemma star_word_run {A : Type} (k : @Re.kont A) n prev (s : text) g :
  (forall n' prev' c s' g', isword c = true -> k n' prev' (c :: s') g' = None) ->
  Re.star isword k n prev s g
  = k (n + length (fst (word_run s))) (prev_after prev (fst (word_run s)))
      (snd (word_run s)) g.
Proof.
  intros Hk. revert n prev. induction s as [|c s IH]; intros n prev.
  - cbn [Re.star word_run fst snd length prev_after fold_left].
    now rewrite Nat.add_0_r.
  - cbn [Re.star word_run]. destruct (isword c) eqn:Hc.
    + rewrite IH, (Hk n prev c s g Hc).
      destruct (word_run s) as [w rest].
      cbn [fst snd length prev_after fold_left].
      replace (n + S (length w)) with (S n + length w) by lia.
      now destruct (k _ _ _ _).
    + cbn [fst snd length prev_after fold_left]. now rewrite Nat.add_0_r.
Qed.

Lemma upto_fence_split (s code0 rest : text) :
  upto_fence s = Some (code0, rest) -> s = code0 ++ fence ++ rest.
Proof.
  revert code0. induction s as [|c s IH]; intros code0.
  - cbn [upto_fence]. change (Str.startswith fence []) with false.
    discriminate.
  - cbn [upto_fence]. destruct (Str.startswith fence (c :: s)) eqn:E.
    + intros [= <- <-]. now apply startswith_split in E.
    + destruct (upto_fence s) as [[code1 rest']|]; [|discriminate].
      intros [= <- <-]. cbn [app]. f_equal. now apply IH.
Qed.

(** A lazy run of any characters before a triple backtick stops at the
    next triple backtick. *)
Lemma lazy_star_upto_fence (n0 : nat) (s0 : text) (s : text) n prev g :
  Re.lazy_star Re.any
    (fun n' prev' s' g' =>
       Re.lit fence (fun n'' _ _ g'' => Some (n'', g'')) n' prev' s'
         ((2, firstn (n' - n0) s0) :: g'))
    n prev s g
  = match upto_fence s with
    | Some (code0, rest) =>
        Some (n + length code0 + length fence,
              (2, firstn (n + length code0 - n0) s0) :: g)
    | None => None
    end.
Proof.
  revert n prev. induction s as [|c s IH]; intros n prev.
  - reflexivity.
  - cbn [Re.lazy_star upto_fence].
    destruct (Str.startswith fence (c :: s)) eqn:E.
    + rewrite (startswith_split _ _ E) at 1. rewrite lit_app.
      cbn [length]. now rewrite !Nat.add_0_r.
    + rewrite lit_fails by exact E. cbn [Re.any]. rewrite IH.
      destruct (upto_fence s) as [[code0 rest]|]; [|reflexivity].
      cbn [length]. do 2 f_equal; [lia|]. do 3 f_equal. lia.
Qed.

Lemma block_at_split (s lang code0 rest : text) :
  block_at s = Some (lang, code0, rest) ->
  s = fence ++ lang ++ nl ++ code0 ++ fence ++ rest /\
  lang <> [] /\ forallb isword lang = true.
Proof.
  unfold block_at. destruct (Str.startswith fence s) eqn:E; [|discriminate].
  apply startswith_split in E.
  destruct (word_run_split (skipn (length fence) s)) as [Hs Hw].
  destruct (word_run (skipn (length fence) s)) as [[|l w] [|c s2]];
    try discriminate.
  cbn [fst snd] in Hs, Hw.
  destruct (Ascii.eqb_spec c LF) as [->|]; [|discriminate].
  destruct (upto_fence s2) as [[code1 rest']|] eqn:Eu; [|discriminate].
  intros [= <- <- <-]. apply upto_fence_split in Eu. subst s2.
  split; [|split; [discriminate|exact Hw]].
  rewrite E at 1. now rewrite Hs.
Qed.

(** The pattern matches at a position exactly when a block opens there,
    and the match is this block. *)
Lemma code_block_match_at (prev : option ascii) (s : text) :
  Re.match_at code_block_re prev s
  = match block_at s with
    | Some (lang, code0, rest) =>
        Some (length (fence ++ lang ++ nl ++ code0 ++ fence),
              [(2, code0); (1, lang)])
    | None => None
    end.
Proof.
  unfold Re.match_at, code_block_re, block_at. cbn [Re.rmatch].
  destruct (Str.startswith fence s) eqn:E; [|now apply lit_fails].
  rewrite (startswith_split _ _ E) at 1. rewrite lit_app.
  set (s1 := skipn (length fence) s).
  destruct s1 as [|c s1'] eqn:Es1; [reflexivity|].
  cbn [word_run]. destruct (isword c) eqn:Hc; [|reflexivity].
  rewrite star_word_run.
  2:{ intros n' prev' c' s' g' Hc'. apply lit_mismatch.
      intros <-. discriminate. }
  destruct (word_run_split s1') as [Hs1 Hw].
  destruct (word_run s1') as [w rest]. cbn [fst snd] in *.
  destruct rest as [|c2 s2]; [reflexivity|].
  cbn [Re.lit nl]. rewrite (Ascii.eqb_sym LF c2).
  destruct (Ascii.eqb_spec c2 LF) as [->|]; [|reflexivity].
  rewrite lazy_star_upto_fence.
  destruct (upto_fence s2) as [[code0 rest]|] eqn:Eu; [|reflexivity].
  apply upto_fence_split in Eu. subst s2.
  f_equal. f_equal.
  - len.
  - f_equal.
    + f_equal. apply firstn_exact. lia.
    + f_equal. f_equal. rewrite Hs1.
      change (c :: w ++ LF :: code0 ++ fence ++ rest)
        with ((c :: w) ++ LF :: code0 ++ fence ++ rest).
      apply firstn_exact. cbn [length]. lia.
Qed.

(** The scan of [findall] takes the blocks as the reading from left to
    right does. *)
Lemma scan_blocks (fuel : nat) :
  forall (s : text) prev gap,
    length s <= fuel ->
    Re.pairs_of (Re.scan code_block_re 0 prev gap s) = blocks_from fuel s.
Proof.
  induction fuel as [|fuel IH]; intros s prev gap Hlen.
  - destruct s; [reflexivity|simpl in Hlen; lia].
  - cbn [blocks_from].
    pose proof (code_block_match_at prev s) as Hm.
    destruct (block_at s) as [[[lang code0] rest]|] eqn:Eb.
    + apply block_at_split in Eb as (Es & Hl & Hw).
      rewrite block_assoc in Es. subst s.
      rewrite (scan_match_app code_block_re _ rest [(2, code0); (1, lang)]);
        [|discriminate|exact Hm].
      cbn [Re.pairs_of Re.group_text Re.group Nat.eqb]. f_equal.
      apply IH. rewrite length_app in Hlen.
      cbn [length app fence list_ascii_of_string] in Hlen. lia.
    + destruct s as [|c s]; [reflexivity|].
      cbn [Re.scan]. rewrite Hm. apply IH. simpl in Hlen. lia.
Qed.

(** C9 (amended).  Reading the document from left to right, the
    extractor recognizes exactly the blocks that open with three
    backticks immediately followed by a language word and a line feed,
    and each is closed by the next triple backtick after this line feed,
    wherever it stands on its line; the reading goes on after the closing
    fence.  The cards are made from these blocks. *)
Theorem code_block_closed_by_next_fence (md_content : text) :
  Re.findall2 code_block_re md_content = fenced_blocks md_content /\
  parse_markdown_code_blocks md_content
  = code_cards md_content (fenced_blocks md_content).
Proof.
  assert (E : Re.findall2 code_block_re md_content = fenced_blocks md_content).
  { unfold Re.findall2, Re.finditer, fenced_blocks. now apply scan_blocks. }
  split; [exact E|]. unfold parse_markdown_code_blocks. now rewrite E.
Qed.


(** ** Code-block extractor: the context of a block *)

Section BlockAfterParagraph.

Variables pre para lang code0 rest : text.
Hypothesis pre_plain : no_backtick pre = true.
Hypothesis para_nonempty : para <> [].
Hypothesis para_stripped : Str.strip para = para.
Hypothesis para_plain : no_backtick para = true.
Hypothesis para_no_blank : Str.contains blank para = false.

Lemma block_found :
  Str.find (fence ++ lang ++ nl ++ code0)
    (pre ++ blank ++ para ++ nl ++ (fence ++ lang ++ nl ++ code0) ++ rest)
  = Z.of_nat (length (pre ++ blank ++ para ++ nl)).
Proof.
  replace (pre ++ blank ++ para ++ nl ++ (fence ++ lang ++ nl ++ code0) ++ rest)
    with ((pre ++ blank ++ para ++ nl) ++ (fence ++ lang ++ nl ++ code0) ++ rest)
    by (now rewrite <- !app_assoc).
  apply (find_block "`"); [reflexivity|].
  intros c Hin. apply (no_backtick_in (pre ++ blank ++ para ++ nl)); auto.
  rewrite !no_backtick_app, pre_plain, para_plain. reflexivity.
Qed.

Lemma paragraph_start_found :
  Str.rfind blank
    (pre ++ blank ++ para ++ nl ++ (fence ++ lang ++ nl ++ code0) ++ rest)
    0 (Z.of_nat (length (pre ++ blank ++ para ++ nl)))
  = Z.of_nat (length pre).
Proof.
  unfold Str.rfind.
  assert (Hlen :
    (Z.of_nat (length (pre ++ blank ++ para ++ nl))
     <= Z.of_nat (length (pre ++ blank ++ para ++ nl
                            ++ (fence ++ lang ++ nl ++ code0) ++ rest)))%Z).
  { len. }
  rewrite !clip_in_range by lia.
  destruct (rfind_from_prefix blank pre
              (blank ++ para ++ nl ++ (fence ++ lang ++ nl ++ code0) ++ rest)
              0 (Z.of_nat (length (pre ++ blank ++ para ++ nl))) 0 (-1))
    as [best ->].
  change (blank ++ para ++ nl ++ (fence ++ lang ++ nl ++ code0) ++ rest)
    with (LF :: nl ++ para ++ nl ++ (fence ++ lang ++ nl ++ code0) ++ rest).
  rewrite rfind_from_hit;
    [|apply (startswith_app blank)|lia|len].
  replace (nl ++ para ++ nl ++ (fence ++ lang ++ nl ++ code0) ++ rest)
    with ((nl ++ para ++ nl) ++ (fence ++ lang ++ nl ++ code0) ++ rest)
    by (now rewrite <- !app_assoc).
  rewrite rfind_from_no_blank.
  - apply rfind_from_out_of_bound. len.
  - now apply no_blank_between_newlines.
  - rewrite fence_cons. cbn [app not_lf_head]. discriminate.
Qed.

Lemma context_is_paragraph :
  Str.strip
    (Str.slice
       (pre ++ blank ++ para ++ nl ++ (fence ++ lang ++ nl ++ code0) ++ rest)
       (Z.of_nat (length pre))
       (Z.of_nat (length (pre ++ blank ++ para ++ nl))))
  = para.
Proof.
  replace (pre ++ blank ++ para ++ nl ++ (fence ++ lang ++ nl ++ code0) ++ rest)
    with (pre ++ (blank ++ para ++ nl) ++ (fence ++ lang ++ nl ++ code0) ++ rest)
    by (now rewrite <- !app_assoc).
  replace (length (pre ++ blank ++ para ++ nl))
    with (length pre + length (blank ++ para ++ nl))
    by (now rewrite !length_app).
  rewrite slice_middle. now apply strip_between_newlines.
Qed.

Lemma code_block_card_after_paragraph :
  code_block_card
    (pre ++ blank ++ para ++ nl ++ (fence ++ lang ++ nl ++ code0) ++ rest)
    (lang, code0)
  = Some (mk_card ("What does this " ++ lang ++ " code do?" ++ nl
                     ++ fence ++ lang ++ nl ++ Str.strip code0 ++ nl ++ fence)
                  para).
Proof.
  unfold code_block_card. change (nl ++ nl) with blank.
  rewrite block_found, paragraph_start_found, context_is_paragraph.
  destruct (Z.eqb_spec (Z.of_nat (length pre)) (-1)) as [Hneg|_]; [lia|].
  cbn [negb].
  destruct (stripped_head para para_nonempty para_stripped) as (c & r & E & _).
  assert (Hc : "`"%char <> c).
  { intros <-. apply (no_backtick_in para "`"%char para_plain); [|reflexivity].
    rewrite E. now left. }
  assert (Ht : truthy para = true) by now rewrite E.
  assert (Hf : Str.startswith fence para = false)
    by (rewrite E, fence_cons; now apply startswith_mismatch).
  now rewrite Ht, Hf.
Qed.

End BlockAfterParagraph.

Section BlockWithoutBoundary.

Variables pre lang code0 rest : text.
Hypothesis pre_plain : no_backtick pre = true.
Hypothesis pre_no_blank : Str.contains blank pre = false.

Lemma code_block_card_no_boundary :
  code_block_card (pre ++ fence ++ lang ++ nl ++ code0 ++ rest) (lang, code0)
  = None.
Proof.
  unfold code_block_card.
  set (doc := pre ++ fence ++ lang ++ nl ++ code0 ++ rest).
  assert (Hfind : Str.find (fence ++ lang ++ nl ++ code0) doc
                  = Z.of_nat (length pre)).
  { unfold doc.
    replace (pre ++ fence ++ lang ++ nl ++ code0 ++ rest)
      with (pre ++ (fence ++ lang ++ nl ++ code0) ++ rest)
      by (now rewrite <- !app_assoc).
    apply (find_block "`"); [reflexivity|].
    intros c Hin. now apply (no_backtick_in pre). }
  rewrite Hfind.
  assert (Hr : Str.rfind blank doc 0 (Z.of_nat (length pre)) = (-1)%Z).
  { unfold Str.rfind.
    rewrite !clip_in_range by (unfold doc; len).
    unfold doc. rewrite rfind_from_no_blank.
    - apply rfind_from_out_of_bound. len.
    - exact pre_no_blank.
    - rewrite fence_cons. cbn [app not_lf_head]. discriminate. }
  change (nl ++ nl) with blank. rewrite Hr. reflexivity.
Qed.

End BlockWithoutBoundary.

(** C8.  A fenced block with a language word, preceded by a paragraph
    that starts after a blank line and runs up to the line of the opening
    fence, gives exactly one card: its front starts with
    ["What does this "] and contains the fenced code, its back is the
    paragraph.  The same block with no blank line anywhere before it, as
    at the start of the document, gives no card.  Here the text around
    has no backtick, the paragraph has neither surrounding white space nor
    a blank line inside, and the code has no backtick. *)
Theorem code_block_card_needs_paragraph (pre para lang code0 post lead : text) :
  no_backtick pre = true -> no_backtick post = true ->
  para <> [] -> Str.strip para = para -> no_backtick para = true ->
  Str.contains blank para = false ->
  lang <> [] -> forallb isword lang = true -> no_backtick code0 = true ->
  no_backtick lead = true -> Str.contains blank lead = false ->
  let block := fence ++ lang ++ nl ++ code0 ++ fence in
  let shown := fence ++ lang ++ nl ++ Str.strip code0 ++ nl ++ fence in
  let front := "What does this " ++ lang ++ " code do?" ++ nl ++ shown in
  parse_markdown_code_blocks (pre ++ blank ++ para ++ nl ++ block ++ post)
  = [mk_card front para] /\
  Str.startswith "What does this " front = true /\
  Str.contains shown front = true /\
  parse_markdown_code_blocks (block ++ post) = [] /\
  parse_markdown_code_blocks (lead ++ block ++ post) = [].
Proof.
  intros Hpre Hpost Hne Hstrip Hpara Hblank Hlang Hword Hcode Hlead Hlb
         block shown front.
  assert (Hall : forall before : text, no_backtick before = true ->
            Re.findall2 code_block_re (before ++ block ++ post) = [(lang, code0)]).
  { intros before Hb. unfold block. rewrite <- !app_assoc.
    rewrite findall_code_block by assumption.
    now rewrite findall_no_backtick. }
  assert (Hnone : forall before : text,
            no_backtick before = true -> Str.contains blank before = false ->
            parse_markdown_code_blocks (before ++ block ++ post) = []).
  { intros before Hb1 Hb2. unfold parse_markdown_code_blocks.
    rewrite Hall by exact Hb1. cbn [code_cards].
    pose proof (code_block_card_no_boundary before lang code0 (fence ++ post)
                  Hb1 Hb2) as E.
    unfold block. rewrite <- !app_assoc. now rewrite E. }
  split; [|split; [|split; [|split]]].
  - unfold parse_markdown_code_blocks.
    replace (pre ++ blank ++ para ++ nl ++ block ++ post)
      with ((pre ++ blank ++ para ++ nl) ++ block ++ post)
      by (now rewrite <- !app_assoc).
    rewrite Hall
      by (rewrite !no_backtick_app, Hpre, Hpara; reflexivity).
    cbn [code_cards].
    pose proof (code_block_card_after_paragraph pre para lang code0
                  (fence ++ post) Hpre Hne Hstrip Hpara Hblank) as E.
    unfold block. rewrite <- !app_assoc in *. now rewrite E.
  - reflexivity.
  - unfold front.
    replace ("What does this " ++ lang ++ " code do?" ++ nl ++ shown)
      with (("What does this " ++ lang ++ " code do?" ++ nl) ++ shown ++ [])
      by (now rewrite app_nil_r, <- !app_assoc).
    apply contains_app.
  - apply (Hnone []); reflexivity.
  - now apply Hnone.
Qed.

(** A Python block after a paragraph of two lines, and the same block
    at the start of a document and after a title line. *)
Lemma code_block_card_needs_paragraph_witness :
  let block := fence ++ "python" ++ nl ++ block_example_code ++ fence in
  let shown := fence ++ "python" ++ nl ++ "print(1)" ++ nl ++ fence in
  let front := "What does this python code do?" ++ nl ++ shown in
  parse_markdown_code_blocks
    (block_example_pre ++ blank ++ block_example_para ++ nl ++ block ++ nl)
  = [mk_card front block_example_para] /\
  Str.startswith "What does this " front = true /\
  Str.contains shown front = true /\
  parse_markdown_code_blocks (block ++ nl) = [] /\
  parse_markdown_code_blocks ("Title" ++ nl ++ block ++ nl) = [].
Proof.
  refine (code_block_card_needs_paragraph
            block_example_pre block_example_para "python" block_example_code
            nl ("Title" ++ nl) _ _ _ _ _ _ _ _ _ _ _);
    solve [reflexivity | discriminate].
Defined.

(** ** Cloze extractor: empty highlighted spans *)

(** C4 (code evaluated at paragraphs with an empty span).  A paragraph of
    20 characters or more with an empty bold span [****] or an empty
    literal span [``] makes [next] raise [StopIteration]: the cloze
    extractor has no card list to return. *)
Theorem cloze_empty_span_raises :
  create_cloze_cards "This has an empty **** bold span" = Raise StopIteration /\
  create_cloze_cards "This has an empty `` literal span" = Raise StopIteration.
Proof. split; reflexivity. Qed.

(** ** Cloze extractor: the highlighted spans of a paragraph *)

Lemma highlight_no_match (prev : option ascii) (c : ascii) (s : text) :
  c <> star_char -> c <> tick_char ->
  Re.match_at highlight_re prev (c :: s) = None.
Proof.
  intros H1 H2. unfold Re.match_at, highlight_re, star_char, tick_char in *.
  cbn [Re.rmatch list_ascii_of_string].
  now rewrite !lit_mismatch by congruence.
Qed.

Lemma highlight_bold_match (prev : option ascii) (h rest : text) :
  lacks star_char h = true -> forallb Re.dot h = true ->
  Re.match_at highlight_re prev ("**" ++ h ++ "**" ++ rest)
  = Some (length ("**" ++ h ++ "**"), [(1, h)]).
Proof.
  intros Hs Hd. unfold Re.match_at, highlight_re. cbn [Re.rmatch].
  rewrite (lit_app "**"). rewrite lazy_star_run.
  - rewrite (lazy_star_accept _ _ _ _ _ _ (length ("**" ++ h ++ "**"), [(1, h)]));
      [reflexivity|].
    rewrite (lit_app "**"). f_equal. f_equal; [len|].
    f_equal. f_equal. apply firstn_exact. len.
  - exact Hd.
  - intros c s' n' prev' g' Hin. apply lit_mismatch.
    intros E. now apply (lacks_in star_char h c Hs Hin).
Qed.

Lemma highlight_assoc (h rest : text) :
  "**" ++ h ++ "**" ++ rest = ("**" ++ h ++ "**") ++ rest.
Proof. now rewrite <- !app_assoc. Qed.

(** The first bold span after plain text, and the scan after it. *)
Lemma findall_bold (a h rest : text) :
  plain a = true -> lacks star_char h = true -> forallb Re.dot h = true ->
  Re.findall2 highlight_re (a ++ "**" ++ h ++ "**" ++ rest)
  = (h, []) :: Re.findall2 highlight_re rest.
Proof.
  intros Ha Hs Hd. unfold Re.findall2, Re.finditer.
  apply andb_prop in Ha as [Ha1 Ha2].
  rewrite scan_no_match.
  2:{ intros c prev s' Hin. apply highlight_no_match.
      - now apply (lacks_in star_char a).
      - now apply (lacks_in tick_char a). }
  rewrite highlight_assoc.
  rewrite (scan_match_app highlight_re _ rest [(1, h)]).
  - cbn [Re.pairs_of]. do 2 f_equal. now apply scan_prev.
  - discriminate.
  - rewrite <- highlight_assoc. now apply highlight_bold_match.
Qed.

Lemma findall_plain (s : text) :
  plain s = true -> Re.findall2 highlight_re s = [].
Proof.
  intros H. apply andb_prop in H as [H1 H2]. unfold Re.findall2, Re.finditer.
  rewrite <- (app_nil_r s). rewrite scan_no_match; [reflexivity|].
  intros c prev s' Hin. apply highlight_no_match.
  - now apply (lacks_in star_char s).
  - now apply (lacks_in tick_char s).
Qed.

(** ** Cloze extractor: the replacement of a span *)

(** A replacement without a backslash stands for itself. *)
Lemma template_literal (t : text) :
  lacks backslash t = true ->
  Re.parse_template Re.TNormal t = Ok (map Re.TChar t).
Proof.
  induction t as [|c t IH]; [reflexivity|].
  cbn [lacks forallb]. intros H. apply andb_prop in H as [Hc Ht].
  cbn [Re.parse_template]. fold backslash. rewrite Hc, (IH Ht). reflexivity.
Qed.

Lemma expand_literal (t whole : text) : Re.expand (map Re.TChar t) whole = t.
Proof. induction t as [|c t IH]; [reflexivity|]. simpl. now rewrite IH. Qed.

Lemma str_of_uint_plain (d : Decimal.uint) :
  lacks backslash (list_ascii_of_string (NilEmpty.string_of_uint d)) = true.
Proof. induction d; simpl; auto. Qed.

Lemma marker_no_backslash (count : nat) (h : text) :
  lacks backslash h = true -> lacks backslash (cloze_marker count h) = true.
Proof.
  intros H. unfold cloze_marker, str_of_nat.
  now rewrite !lacks_app, str_of_uint_plain, H.
Qed.

(** One iteration on a bold span that is the first one left. *)
Lemma cloze_step_bold (a h rest : text) (count : nat) :
  h <> [] -> lacks star_char a = true -> lacks backslash h = true ->
  cloze_step (a ++ "**" ++ h ++ "**" ++ rest, count) (h, [])
  = Ok (a ++ cloze_marker count h ++ rest, S count).
Proof.
  intros Hh Ha Hb. unfold cloze_step, next_truthy. cbn [fst snd].
  destruct h as [|h0 h]; [easy|]. cbn [truthy bind].
  set (hl := h0 :: h) in *.
  assert (E : Re.search_from (Re.Lit ("**" ++ hl ++ "**")) None []
                (a ++ "**" ++ hl ++ "**" ++ rest)
              = Some (a, length ("**" ++ hl ++ "**"), [],
                      ("**" ++ hl ++ "**") ++ rest)).
  { rewrite highlight_assoc. now apply (search_literal star_char). }
  unfold Re.search, Re.sub1. rewrite E. cbn [negb].
  rewrite template_literal by now apply marker_no_backslash.
  cbn [bind]. rewrite E, expand_literal.
  now rewrite skipn_exact.
Qed.

(** A replacement leaves alone the text before the first character that
    can start a match. *)
Lemma sub1_keeps_prefix (x : ascii) (l repl kept rest t' : text) :
  lacks x kept = true ->
  Re.sub1 (Re.Lit (x :: l)) repl (kept ++ rest) = Ok t' ->
  exists rest', t' = kept ++ rest'.
Proof.
  intros Hk. unfold Re.sub1.
  destruct (Re.parse_template Re.TNormal repl) as [t|e]; [|discriminate].
  cbn [bind]. rewrite search_from_skip.
  2:{ intros c prev s' Hin. unfold Re.match_at. cbn [Re.rmatch].
      apply lit_mismatch. intros E. now apply (lacks_in x kept c Hk Hin). }
  destruct (Re.search_from _ _ _ rest) as [[[[before n] g] at_match]|] eqn:E;
    intros [= <-].
  - apply search_from_split in E as (mid & -> & _).
    rewrite app_nil_r, rev_involutive, <- app_assoc. now eexists.
  - now exists rest.
Qed.

Lemma cloze_step_keeps_prefix (kept : text) :
  plain kept = true ->
  forall (st : text * nat) (highlight : text * text) (st' : text * nat),
    (exists rest, fst st = kept ++ rest) ->
    cloze_step st highlight = Ok st' ->
    exists rest', fst st' = kept ++ rest'.
Proof.
  intros Hk [t count] highlight st' [rest E] H. cbn [fst] in E. subst t.
  apply andb_prop in Hk as [Hs Ht].
  unfold cloze_step in H.
  destruct (next_truthy highlight) as [h|e]; [|discriminate]. cbn [bind] in H.
  destruct (negb _);
    match type of H with
    | context [Re.sub1 ?pat ?repl ?t] =>
        destruct (Re.sub1 pat repl t) as [t'|e] eqn:Es; [|discriminate]
    end;
    cbn [bind] in H; injection H as <-; cbn [fst].
  - now apply (sub1_keeps_prefix tick_char) in Es.
  - now apply (sub1_keeps_prefix star_char) in Es.
Qed.

(** An empty bold span after plain text makes the extractor raise,
    whatever follows it. *)
Lemma cloze_empty_bold_raises (pre tail : text) :
  plain pre = true ->
  Str.startswith "#" (pre ++ "****" ++ tail) = false ->
  20 <= length (pre ++ "****" ++ tail) ->
  cloze_paragraph (pre ++ "****" ++ tail) = Raise StopIteration.
Proof.
  intros Hpre Hhash Hlen. unfold cloze_paragraph. rewrite Hhash.
  replace (length (pre ++ "****" ++ tail) <? 20)%nat with false
    by (symmetry; now apply Nat.ltb_ge).
  cbn [orb].
  change (pre ++ "****" ++ tail) with (pre ++ "**" ++ [] ++ "**" ++ tail).
  rewrite findall_bold by (exact Hpre || reflexivity).
  reflexivity.
Qed.

(** ** Cloze extractor: the documented sentence *)

(** C7 (counterexamples).  A paragraph of 20 characters or more that
    contains the sentence need not give the markers [c1] and [c2]: a span
    highlighted before the sentence takes the number 1, and a paragraph
    that starts with [#] is skipped. *)
Lemma cloze_sentence_shifted_or_skipped :
  let p1 : text := "`a` " ++ sentence in
  let p2 : text := "# " ++ sentence in
  (20 <= length p1 /\ Str.contains sentence p1 = true /\
   create_cloze_cards p1
   = Ok [mk_card "{{c1::a}} The {{c2::mitochondria}} is the {{c3::powerhouse}}" []] /\
   Str.contains "{{c1::mitochondria}}"
     "{{c1::a}} The {{c2::mitochondria}} is the {{c3::powerhouse}}" = false) /\
  (20 <= length p2 /\ Str.contains sentence p2 = true /\
   create_cloze_cards p2 = Ok []).
Proof.
  cbv zeta. repeat split; try reflexivity; simpl; lia.
Qed.

Lemma startswith_hash (pre s : text) :
  Str.startswith "#" pre = false -> Str.startswith "#" (pre ++ "T"%char :: s) = false.
Proof. destruct pre as [|c pre]; [reflexivity|]. intros H. exact H. Qed.

Lemma cloze_sentence_highlights (pre tail : text) :
  plain pre = true ->
  Re.findall2 highlight_re (pre ++ sentence ++ tail)
  = ("mitochondria" : text, [] : text) :: ("powerhouse" : text, [] : text)
      :: Re.findall2 highlight_re tail.
Proof.
  intros Hpre.
  change (pre ++ sentence ++ tail)
    with (pre ++ "The " ++ "**" ++ "mitochondria" ++ "**"
            ++ " is the " ++ "**" ++ "powerhouse" ++ "**" ++ tail).
  rewrite (app_assoc pre "The ").
  rewrite findall_bold;
    [|now rewrite plain_app, Hpre|reflexivity|reflexivity].
  now rewrite findall_bold.
Qed.

(** The first two iterations rewrite the two spans of the sentence. *)
Lemma cloze_sentence_steps (pre tail : text) (rest : list (text * text)) :
  plain pre = true ->
  foldM cloze_step
    (("mitochondria" : text, [] : text) :: ("powerhouse" : text, [] : text) :: rest)
    (pre ++ sentence ++ tail, 1)
  = foldM cloze_step rest (pre ++ sentence_cloze ++ tail, 3).
Proof.
  intros Hpre. apply andb_prop in Hpre as [Hpre _].
  change (pre ++ sentence ++ tail)
    with (pre ++ "The " ++ "**" ++ "mitochondria" ++ "**"
            ++ " is the " ++ "**" ++ "powerhouse" ++ "**" ++ tail).
  rewrite (app_assoc pre "The "). cbn [foldM].
  rewrite cloze_step_bold;
    [|discriminate|now rewrite lacks_app, Hpre|reflexivity].
  cbn [bind].
  rewrite (app_assoc (cloze_marker 1 "mitochondria") " is the ").
  rewrite (app_assoc (pre ++ "The ")).
  rewrite cloze_step_bold;
    [|discriminate|now rewrite !lacks_app, Hpre|reflexivity].
  cbn [bind]. rewrite <- !app_assoc. reflexivity.
Qed.

Lemma cloze_sentence_paragraph (pre tail : text) :
  plain pre = true -> Str.startswith "#" pre = false ->
  cloze_paragraph (pre ++ sentence ++ tail)
  = (st <- foldM cloze_step (Re.findall2 highlight_re tail)
             (pre ++ sentence_cloze ++ tail, 3) ;;
     if Str.contains "{{c" (fst st)
     then Ok (Some (mk_card (fst st) [])) else Ok None).
Proof.
  intros Hpre Hhash. unfold cloze_paragraph.
  assert (H1 : Str.startswith "#" (pre ++ sentence ++ tail) = false)
    by now apply startswith_hash.
  assert (H2 : (length (pre ++ sentence ++ tail) <? 20)%nat = false).
  { apply Nat.ltb_ge. rewrite !length_app. simpl. lia. }
  rewrite H1, H2. cbn [orb].
  rewrite cloze_sentence_highlights by exact Hpre.
  now rewrite cloze_sentence_steps.
Qed.

Lemma contains_marker_start (pre tail : text) :
  Str.contains "{{c" (pre ++ sentence_cloze ++ tail) = true.
Proof.
  change (pre ++ sentence_cloze ++ tail)
    with (pre ++ "The " ++ "{{c"
            ++ "1::mitochondria}} is the {{c2::powerhouse}}" ++ tail).
  rewrite (app_assoc pre). apply contains_app.
Qed.

(** The paragraph of the sentence, when nothing highlighted follows the
    sentence. *)
Lemma cloze_sentence_plain_rest (pre suf : text) :
  plain pre = true -> Str.startswith "#" pre = false -> plain suf = true ->
  cloze_paragraph (pre ++ sentence ++ suf)
  = Ok (Some (mk_card (pre ++ sentence_cloze ++ suf) [])).
Proof.
  intros Hpre Hhash Hsuf.
  rewrite cloze_sentence_paragraph by assumption.
  rewrite findall_plain by exact Hsuf. cbn [foldM bind fst].
  now rewrite contains_marker_start.
Qed.

(** The paragraph of the sentence, whatever follows the sentence. *)
Lemma cloze_sentence_any_rest (pre tail : text) (c : option card) :
  plain pre = true -> Str.startswith "#" pre = false ->
  cloze_paragraph (pre ++ sentence ++ tail) = Ok c ->
  exists tail', c = Some (mk_card (pre ++ sentence_cloze ++ tail') []).
Proof.
  intros Hpre Hhash. rewrite cloze_sentence_paragraph by assumption.
  destruct (foldM cloze_step (Re.findall2 highlight_re tail)
              (pre ++ sentence_cloze ++ tail, 3)) as [st|e] eqn:E;
    cbn [bind]; [|discriminate].
  assert (Hkept : exists rest, fst st = (pre ++ sentence_cloze) ++ rest).
  { refine (foldM_invariant
              (fun st => exists rest, fst st = (pre ++ sentence_cloze) ++ rest)
              cloze_step _ _ _ st _ E).
    - intros a b a' Ha Hstep.
      refine (cloze_step_keeps_prefix _ _ a b a' Ha Hstep).
      now rewrite plain_app, Hpre.
    - exists tail. cbn [fst]. now rewrite <- app_assoc. }
  destruct Hkept as [rest Hst]. rewrite <- app_assoc in Hst.
  rewrite Hst, contains_marker_start. intros [= <-]. now exists rest.
Qed.

Lemma foldM_app {A B : Type} (f : A -> B -> result A) (l1 l2 : list B) (a : A) :
  foldM f (l1 ++ l2) a = (a' <- foldM f l1 a ;; foldM f l2 a').
Proof.
  revert a. induction l1 as [|b l1 IH]; intros a; [reflexivity|].
  cbn [app foldM]. destruct (f a b) as [a'|e]; cbn [bind]; [apply IH|reflexivity].
Qed.

(** The loop over the paragraphs only adds cards. *)
Lemma cloze_loop_extends (ps : list text) (cards cards' : list card) :
  foldM cloze_loop ps cards = Ok cards' -> exists more, cards' = cards ++ more.
Proof.
  revert cards. induction ps as [|p ps IH]; intros cards H.
  - injection H as <-. exists []. now rewrite app_nil_r.
  - cbn [foldM] in H. unfold cloze_loop at 1 in H.
    destruct (cloze_paragraph p) as [[c|]|e]; cbn [bind] in H;
      [| |discriminate].
    + apply IH in H as [more ->]. exists (c :: more).
      now rewrite <- app_assoc.
    + now apply IH.
Qed.

(** When the extractor returns, every paragraph has been rewritten
    without exception, and the card of a paragraph is among the cards. *)
Lemma cloze_cards_of_paragraph (md : text) (before after : list text)
  (paragraph : text) (cards : list card) :
  paragraphs md = before ++ paragraph :: after ->
  create_cloze_cards md = Ok cards ->
  exists c, cloze_paragraph paragraph = Ok c /\
            match c with Some c => In c cards | None => True end.
Proof.
  unfold create_cloze_cards, paragraphs. intros -> H.
  rewrite foldM_app in H.
  destruct (foldM cloze_loop before []) as [cb|e]; cbn [bind] in H;
    [|discriminate].
  cbn [foldM] in H. unfold cloze_loop at 1 in H.
  destruct (cloze_paragraph paragraph) as [[c|]|e]; cbn [bind] in H;
    [| |discriminate].
  - exists (Some c). split; [reflexivity|].
    apply cloze_loop_extends in H as [more ->].
    apply in_or_app. left. apply in_or_app. right. now left.
  - now exists None.
Qed.

(** A document of one paragraph gives the card of this paragraph. *)
Lemma cloze_cards_one_paragraph (md : text) :
  paragraphs md = [md] ->
  create_cloze_cards md
  = (c <- cloze_paragraph md ;;
     Ok match c with Some c => [c] | None => [] end).
Proof.
  unfold create_cloze_cards, paragraphs. intros ->. cbn [foldM].
  unfold cloze_loop. destruct (cloze_paragraph md) as [[c|]|e]; reflexivity.
Qed.

Lemma cloze_loop_none (ps : list text) (cards : list card) :
  Forall (fun p => cloze_paragraph p = Ok None) ps ->
  foldM cloze_loop ps cards = Ok cards.
Proof.
  induction 1 as [|p ps Hp _ IH]; [reflexivity|].
  cbn [foldM]. unfold cloze_loop at 1. rewrite Hp. cbn [bind]. exact IH.
Qed.

Lemma cloze_paragraph_short (p : text) :
  length p < 20 -> cloze_paragraph p = Ok None.
Proof.
  intros H. unfold cloze_paragraph.
  replace (length p <? 20)%nat with true by (symmetry; now apply Nat.ltb_lt).
  now rewrite orb_true_r.
Qed.

(** C7 (amended).  Take a paragraph of the document (a piece between
    blank lines) that does not start with [#] and in which the sentence
    comes after text without [*] and without backtick, so that its two
    bold spans are the first two highlighted spans.  Whenever the cloze
    extractor returns on the document, its cards include one whose back is
    empty and whose front is the text before the sentence, the sentence
    with [{{c1::mitochondria}}] and [{{c2::powerhouse}}] in place of the
    spans, and the rewritten rest of the paragraph.  On a document that is
    this one paragraph, with no [*] and no backtick after the sentence,
    the extractor returns exactly this card, the rest unchanged.  A
    document whose paragraphs are all shorter than 20 characters gives no
    card. *)
Theorem cloze_sentence_card (pre suf tail md_content short_md : text)
  (before after : list text) :
  plain pre = true -> Str.startswith "#" pre = false ->
  plain suf = true -> paragraphs (pre ++ sentence ++ suf) = [pre ++ sentence ++ suf] ->
  paragraphs md_content = before ++ (pre ++ sentence ++ tail) :: after ->
  forallb (fun p => (length p <? 20)%nat) (paragraphs short_md) = true ->
  let front := pre ++ sentence_cloze ++ suf in
  create_cloze_cards (pre ++ sentence ++ suf) = Ok [mk_card front []] /\
  Str.contains "{{c1::mitochondria}}" front = true /\
  Str.contains "{{c2::powerhouse}}" front = true /\
  match create_cloze_cards md_content with
  | Ok cards =>
      exists tail', In (mk_card (pre ++ sentence_cloze ++ tail') []) cards
  | Raise _ => True
  end /\
  create_cloze_cards short_md = Ok [].
Proof.
  intros Hpre Hhash Hsuf Hone Hmd Hshort front.
  split; [|split; [|split; [|split]]].
  - rewrite cloze_cards_one_paragraph by exact Hone.
    now rewrite cloze_sentence_plain_rest.
  - unfold front.
    change (pre ++ sentence_cloze ++ suf)
      with (pre ++ "The " ++ "{{c1::mitochondria}}"
              ++ " is the {{c2::powerhouse}}" ++ suf).
    rewrite (app_assoc pre). apply contains_app.
  - unfold front.
    change (pre ++ sentence_cloze ++ suf)
      with (pre ++ "The {{c1::mitochondria}} is the "
              ++ "{{c2::powerhouse}}" ++ suf).
    rewrite (app_assoc pre). apply contains_app.
  - destruct (create_cloze_cards md_content) as [cards|e] eqn:E; [|exact I].
    destruct (cloze_cards_of_paragraph _ _ _ _ _ Hmd E) as (c & Hc & Hin).
    apply cloze_sentence_any_rest in Hc as [tail' ->]; [|assumption..].
    now exists tail'.
  - unfold create_cloze_cards. fold (paragraphs short_md).
    apply cloze_loop_none. apply Forall_forall. intros p Hin.
    apply cloze_paragraph_short. apply Nat.ltb_lt.
    now apply (proj1 (forallb_forall _ _) Hshort).
Qed.

(** The sentence in a paragraph of its own, and in the second of three
    paragraphs with further highlighted spans after it. *)
Lemma cloze_sentence_card_witness :
  let front : text :=
    "Biology: The {{c1::mitochondria}} is the {{c2::powerhouse}} of the cell." in
  create_cloze_cards
    "Biology: The **mitochondria** is the **powerhouse** of the cell."
  = Ok [mk_card front []] /\
  Str.contains "{{c1::mitochondria}}" front = true /\
  Str.contains "{{c2::powerhouse}}" front = true /\
  match create_cloze_cards
          ("Notes on the **cell** and its parts." ++ blank
             ++ "Biology: " ++ sentence ++ " of the `cell`, not the **nucleus**."
             ++ blank ++ "The end.") with
  | Ok cards =>
      exists tail', In (mk_card ("Biology: " ++ sentence_cloze ++ tail') []) cards
  | Raise _ => True
  end /\
  create_cloze_cards ("A **bold** word" ++ blank ++ "and `another`") = Ok [].
Proof.
  refine (cloze_sentence_card "Biology: " " of the cell."
            " of the `cell`, not the **nucleus**."
            ("Notes on the **cell** and its parts." ++ blank
               ++ "Biology: " ++ sentence ++ " of the `cell`, not the **nucleus**."
               ++ blank ++ "The end.")
            ("A **bold** word" ++ blank ++ "and `another`")
            ["Notes on the **cell** and its parts." : text]
            ["The end." : text] _ _ _ _ _ _);
    reflexivity.
Defined.

(** ** Fronts are not empty *)

(** C5 (counterexample).  The section extractor pairs every header with
    its body and filters nothing: the header ["## "] has an empty text and
    gives a card with an empty front. *)
Lemma sections_emit_empty_front :
  ~ Forall front_nonempty (parse_markdown_h2_sections "## ").
Proof.
  change (parse_markdown_h2_sections "## ") with [mk_card [] []].
  intros H. inversion H as [|c l Hc _]. now apply Hc.
Qed.

Lemma bullet_flush_fronts (st : bullet_state) :
  Forall front_nonempty (cards st) -> Forall front_nonempty (bullet_flush st).
Proof.
  intros H. unfold bullet_flush.
  destruct (current_question st) as [q|]; [|exact H].
  destruct (truthy q) eqn:Hq; simpl; [|exact H].
  destruct (negb _); [|exact H].
  apply Forall_app. split; [exact H|].
  constructor; [|constructor].
  unfold front_nonempty. simpl. now destruct q.
Qed.

Lemma bullet_step_fronts (st : bullet_state) (raw : text) :
  Forall front_nonempty (cards st) ->
  Forall front_nonempty (cards (bullet_step st raw)).
Proof.
  intros H. unfold bullet_step.
  destruct (negb (truthy (Str.strip raw))); [exact H|].
  destruct (_ || _); simpl; [now apply bullet_flush_fronts|].
  destruct (_ || _); [|exact H].
  now destruct (truthy_opt _).
Qed.

Lemma bullet_fold_fronts (lines : list text) (st : bullet_state) :
  Forall front_nonempty (cards st) ->
  Forall front_nonempty (cards (fold_left bullet_step lines st)).
Proof.
  revert st. induction lines as [|l lines IH]; intros st H; simpl.
  - exact H.
  - now apply IH, bullet_step_fronts.
Qed.

Lemma code_block_card_front (md : text) (block : text * text) (c : card) :
  code_block_card md block = Some c -> front_nonempty c.
Proof.
  unfold code_block_card. destruct block as [lang code0].
  destruct (negb _); [|discriminate].
  destruct (_ && _); [|discriminate].
  intros [= <-]. unfold front_nonempty. simpl. discriminate.
Qed.

Lemma code_cards_fronts (md : text) (blocks : list (text * text)) :
  Forall front_nonempty (code_cards md blocks).
Proof.
  induction blocks as [|b blocks IH]; simpl.
  - constructor.
  - destruct (code_block_card md b) as [c|] eqn:E; [|exact IH].
    constructor; [|exact IH].
    now apply (code_block_card_front md b).
Qed.

Lemma cloze_paragraph_front (paragraph : text) (c : card) :
  cloze_paragraph paragraph = Ok (Some c) -> front_nonempty c.
Proof.
  unfold cloze_paragraph.
  destruct (_ || _); [discriminate|].
  destruct (Re.findall2 highlight_re paragraph) as [|h hs]; [discriminate|].
  destruct (foldM cloze_step (h :: hs) (paragraph, 1)) as [st|e]; cbn [bind];
    [|discriminate].
  destruct (Str.contains "{{c" (fst st)) eqn:E; [|discriminate].
  intros [= <-]. unfold front_nonempty. simpl.
  now apply contains_nonempty in E.
Qed.

Lemma cloze_loop_fronts (cards : list card) (paragraph : text)
  (cards' : list card) :
  Forall front_nonempty cards -> cloze_loop cards paragraph = Ok cards' ->
  Forall front_nonempty cards'.
Proof.
  intros H. unfold cloze_loop.
  destruct (cloze_paragraph paragraph) as [[c|]|e] eqn:E; simpl;
    intros [= <-]; [|exact H].
  apply Forall_app. split; [exact H|].
  constructor; [|constructor].
  now apply (cloze_paragraph_front paragraph).
Qed.

(** C5 (amended).  On every document, every card of the bullet extractor
    and of the code-block extractor has a non-empty front, and so has
    every card of the cloze extractor when it returns. *)
Theorem extracted_fronts_nonempty (md_content : text) :
  Forall front_nonempty (parse_markdown_bullet_points md_content) /\
  Forall front_nonempty (parse_markdown_code_blocks md_content) /\
  match create_cloze_cards md_content with
  | Ok cards => Forall front_nonempty cards
  | Raise _ => True
  end.
Proof.
  split; [|split].
  - apply bullet_flush_fronts, bullet_fold_fronts. constructor.
  - apply code_cards_fronts.
  - destruct (create_cloze_cards md_content) as [cards|e] eqn:E; [|exact I].
    refine (foldM_invariant (Forall front_nonempty) cloze_loop
              cloze_loop_fronts _ [] cards _ E).
    constructor.
Qed.

(** ** Card writer *)

Lemma special_false (d c : ascii) :
  Csv.special d c = false ->
  (c =? d)%char = false /\ (c =? Csv.quotechar)%char = false /\
  Csv.is_newline c = false.
Proof.
  unfold Csv.special, Csv.is_newline, Csv.lineterminator. cbn [existsb].
  intros H. apply orb_false_elim in H as [H H3].
  apply orb_false_elim in H as [H1 H2].
  apply orb_false_elim in H3 as [H3 H4].
  apply orb_false_elim in H4 as [H4 _].
  rewrite H1, H2, H3, H4. auto.
Qed.

Lemma add_char_fits (s : Csv.state) (fs : Csv.row) (x : text) (c : ascii)
  (rest : text) :
  fits (x ++ c :: rest) = true ->
  Csv.parse_add_char {| Csv.st := s; Csv.fields := fs; Csv.field := x |} c
  = Some {| Csv.st := s; Csv.fields := fs; Csv.field := x ++ [c] |}.
Proof.
  unfold fits, Csv.parse_add_char. cbn [Csv.field Csv.st Csv.fields].
  rewrite length_app. cbn [length]. intros H.
  apply N.leb_le in H.
  destruct (N.leb_spec Csv.field_limit (N.of_nat (length x))); [lia|reflexivity].
Qed.

Lemma line_ends_plain (c : ascii) (s : text) :
  s <> [] -> Csv.is_newline c = false -> Csv.line_ends c s = false.
Proof.
  intros Hs Hc. destruct s as [|c' s]; [easy|].
  unfold Csv.is_newline in Hc. apply orb_false_elim in Hc as [H1 H2].
  cbn [Csv.line_ends]. now rewrite H1, H2.
Qed.

Lemma read_unquoted (d : ascii) (fs : Csv.row) (f x rest : text) :
  forallb (fun c => negb (Csv.special d c)) f = true -> rest <> [] ->
  fits (x ++ f) = true ->
  Csv.read d {| Csv.st := Csv.IN_FIELD; Csv.fields := fs; Csv.field := x |}
    (f ++ rest)
  = Csv.read d {| Csv.st := Csv.IN_FIELD; Csv.fields := fs; Csv.field := x ++ f |}
      rest.
Proof.
  intros Hf Hrest. revert x. induction f as [|c f IH]; intros x Hfit.
  - now rewrite app_nil_r.
  - cbn [forallb] in Hf. apply andb_prop in Hf as [Hc Hf].
    apply negb_true_iff, special_false in Hc as (Hd & Hq & Hn).
    cbn [app Csv.read]. unfold Csv.parse_process_char. cbn [Csv.st].
    rewrite Hn, Hd, (add_char_fits _ _ _ _ f Hfit).
    rewrite line_ends_plain; [|now destruct f|exact Hn].
    rewrite (IH Hf); [now rewrite <- app_assoc|now rewrite <- app_assoc].
Qed.

Lemma plain_delimiter_inv (d : ascii) :
  plain_delimiter d = true ->
  (d =? Csv.quotechar)%char = false /\ Csv.is_newline d = false.
Proof.
  unfold plain_delimiter. intros H. apply andb_prop in H as [H1 H2].
  now apply negb_true_iff in H1, H2.
Qed.

(** A quoted field, from its first character to its closing quote. *)
Lemma read_quoted (d : ascii) (fs : Csv.row) (f x rest : text) :
  rest <> [] -> fits (x ++ f) = true ->
  Csv.read d
    {| Csv.st := Csv.IN_QUOTED_FIELD; Csv.fields := fs; Csv.field := x |}
    (Csv.doubled f ++ Csv.quotechar :: rest)
  = Csv.read d
      {| Csv.st := Csv.QUOTE_IN_QUOTED_FIELD; Csv.fields := fs;
         Csv.field := x ++ f |}
      rest.
Proof.
  intros Hrest. revert x. induction f as [|c f IH]; intros x Hfit.
  - rewrite app_nil_r. cbn [Csv.doubled app Csv.read].
    unfold Csv.parse_process_char. cbn [Csv.st].
    rewrite Ascii.eqb_refl.
    now rewrite line_ends_plain by (exact Hrest || reflexivity).
  - cbn [Csv.doubled]. destruct (c =? Csv.quotechar)%char eqn:Hq.
    + apply Ascii.eqb_eq in Hq. subst c.
      assert (E2 : Csv.parse_process_char d
                     {| Csv.st := Csv.QUOTE_IN_QUOTED_FIELD; Csv.fields := fs;
                        Csv.field := x |} Csv.quotechar
                   = Some {| Csv.st := Csv.IN_QUOTED_FIELD; Csv.fields := fs;
                             Csv.field := x ++ [Csv.quotechar] |}).
      { unfold Csv.parse_process_char. cbn [Csv.st].
        rewrite Ascii.eqb_refl.
        now rewrite (add_char_fits _ _ _ _ f Hfit). }
      cbn [app Csv.read].
      change (Csv.parse_process_char d
                {| Csv.st := Csv.IN_QUOTED_FIELD; Csv.fields := fs;
                   Csv.field := x |} Csv.quotechar)
        with (Some {| Csv.st := Csv.QUOTE_IN_QUOTED_FIELD; Csv.fields := fs;
                      Csv.field := x |}).
      cbv iota. rewrite line_ends_plain by (discriminate || reflexivity).
      rewrite E2.
      rewrite line_ends_plain; [|now destruct (Csv.doubled f)|reflexivity].
      rewrite IH by now rewrite <- app_assoc.
      now rewrite <- app_assoc.
    + cbn [app Csv.read]. unfold Csv.parse_process_char at 1. cbn [Csv.st].
      rewrite Hq, (add_char_fits _ _ _ _ f Hfit).
      assert (E : Csv.read d
                    {| Csv.st := Csv.IN_QUOTED_FIELD; Csv.fields := fs;
                       Csv.field := x ++ [c] |}
                    (Csv.doubled f ++ Csv.quotechar :: rest)
                  = Csv.read d
                      {| Csv.st := Csv.QUOTE_IN_QUOTED_FIELD; Csv.fields := fs;
                         Csv.field := x ++ c :: f |} rest).
      { rewrite IH by now rewrite <- app_assoc. now rewrite <- app_assoc. }
      destruct (Csv.line_ends c _); [|exact E].
      cbn [Csv.parse_process_eol Csv.st Csv.at_start]. exact E.
Qed.

(** The opening quote of a field. *)
Lemma read_open_quote (d : ascii) (s : Csv.state) (fs : Csv.row) (rest : text) :
  starting s -> rest <> [] ->
  Csv.read d {| Csv.st := s; Csv.fields := fs; Csv.field := [] |}
    (Csv.quotechar :: rest)
  = Csv.read d
      {| Csv.st := Csv.IN_QUOTED_FIELD; Csv.fields := fs; Csv.field := [] |}
      rest.
Proof.
  intros Hs Hrest. cbn [Csv.read].
  assert (E : Csv.parse_process_char d
                {| Csv.st := s; Csv.fields := fs; Csv.field := [] |}
                Csv.quotechar
              = Some {| Csv.st := Csv.IN_QUOTED_FIELD; Csv.fields := fs;
                        Csv.field := [] |}).
  { destruct Hs as [-> | ->]; reflexivity. }
  rewrite E. now rewrite line_ends_plain.
Qed.

(** A field as it is written, read where a field is expected. *)
Lemma read_field (d : ascii) (s : Csv.state) (fs : Csv.row) (f rest : text) :
  plain_delimiter d = true -> starting s -> rest <> [] -> fits f = true ->
  Csv.read d {| Csv.st := s; Csv.fields := fs; Csv.field := [] |}
    (Csv.join_field d f ++ rest)
  = Csv.read d
      {| Csv.st := if existsb (Csv.special d) f then Csv.QUOTE_IN_QUOTED_FIELD
                   else match f with [] => s | _ :: _ => Csv.IN_FIELD end;
         Csv.fields := fs; Csv.field := f |}
      rest.
Proof.
  intros Hd Hs Hrest Hfit. unfold Csv.join_field.
  destruct (existsb (Csv.special d) f) eqn:Hsp.
  - cbn [app Csv.read].
    assert (E : Csv.parse_process_char d
                  {| Csv.st := s; Csv.fields := fs; Csv.field := [] |}
                  Csv.quotechar
                = Some {| Csv.st := Csv.IN_QUOTED_FIELD; Csv.fields := fs;
                          Csv.field := [] |}).
    { destruct Hs as [-> | ->]; reflexivity. }
    rewrite E.
    rewrite line_ends_plain;
      [|now destruct (Csv.doubled f)|reflexivity].
    rewrite <- app_assoc. cbn [app].
    now rewrite read_quoted.
  - destruct f as [|c f]; [reflexivity|].
    assert (Hall : forallb (fun c => negb (Csv.special d c)) (c :: f) = true).
    { apply forallb_forall. intros a Ha. apply negb_true_iff.
      destruct (Csv.special d a) eqn:Ea; [|reflexivity].
      assert (existsb (Csv.special d) (c :: f) = true)
        by (apply existsb_exists; now exists a).
      congruence. }
    cbn [forallb] in Hall. apply andb_prop in Hall as [Hc Hall].
    apply negb_true_iff, special_false in Hc as (Hcd & Hcq & Hcn).
    cbn [app Csv.read].
    assert (E : Csv.parse_process_char d
                  {| Csv.st := s; Csv.fields := fs; Csv.field := [] |} c
                = Some {| Csv.st := Csv.IN_FIELD; Csv.fields := fs;
                          Csv.field := [c] |}).
    { unfold Csv.parse_process_char, Csv.start_field.
      destruct Hs as [-> | ->]; cbn [Csv.st]; rewrite Hcn, Hcq, Hcd;
        now rewrite (add_char_fits _ _ [] c f Hfit). }
    rewrite E.
    rewrite line_ends_plain; [|now destruct f|exact Hcn].
    now rewrite read_unquoted.
Qed.

(** The delimiter after a field. *)
Lemma read_delimiter (d : ascii) (s : Csv.state) (fs : Csv.row) (x rest : text) :
  plain_delimiter d = true -> after_field s -> rest <> [] ->
  Csv.read d {| Csv.st := s; Csv.fields := fs; Csv.field := x |} (d :: rest)
  = Csv.read d
      {| Csv.st := Csv.START_FIELD; Csv.fields := fs ++ [x]; Csv.field := [] |}
      rest.
Proof.
  intros Hd Hs Hrest. apply plain_delimiter_inv in Hd as [Hq Hn].
  cbn [Csv.read].
  assert (E : Csv.parse_process_char d
                {| Csv.st := s; Csv.fields := fs; Csv.field := x |} d
              = Some {| Csv.st := Csv.START_FIELD; Csv.fields := fs ++ [x];
                        Csv.field := [] |}).
  { unfold Csv.parse_process_char, Csv.start_field.
    destruct Hs as [-> | [-> | [-> | ->]]]; cbn [Csv.st];
      now rewrite ?Hn, ?Hq, ?Ascii.eqb_refl. }
  rewrite E. now rewrite line_ends_plain.
Qed.

(** The end of a record after a field. *)
Lemma read_terminator (d : ascii) (s : Csv.state) (fs : Csv.row) (x rest : text) :
  plain_delimiter d = true ->
  s = Csv.START_FIELD \/ s = Csv.IN_FIELD \/ s = Csv.QUOTE_IN_QUOTED_FIELD ->
  Csv.read d {| Csv.st := s; Csv.fields := fs; Csv.field := x |}
    (Csv.lineterminator ++ rest)
  = option_map (cons (fs ++ [x])) (Csv.read d Csv.parse_reset rest).
Proof.
  intros Hd Hs. apply plain_delimiter_inv in Hd as [Hq Hn].
  unfold Csv.lineterminator. cbn [app Csv.read].
  assert (Hdc : (Csv.CR =? d)%char = false).
  { apply Ascii.eqb_neq. intros <-. discriminate. }
  assert (E : Csv.parse_process_char d
                {| Csv.st := s; Csv.fields := fs; Csv.field := x |} Csv.CR
              = Some {| Csv.st := Csv.EAT_CRNL; Csv.fields := fs ++ [x];
                        Csv.field := [] |}).
  { unfold Csv.parse_process_char, Csv.start_field.
    destruct Hs as [-> | [-> | ->]]; cbn [Csv.st]; rewrite ?Hdc; reflexivity. }
  rewrite E. cbn [Csv.line_ends].
  change ((Csv.CR =? LF)%char || (Csv.CR =? Csv.CR)%char && negb (LF =? LF)%char)
    with false. cbv iota.
  unfold Csv.parse_process_char. cbn [Csv.st].
  change (Csv.is_newline LF) with true. cbv iota.
  assert (L : Csv.line_ends LF rest = true) by now destruct rest.
  rewrite L. reflexivity.
Qed.

Lemma field_state_after (d : ascii) (s : Csv.state) (f : text) :
  starting s ->
  after_field (if existsb (Csv.special d) f then Csv.QUOTE_IN_QUOTED_FIELD
               else match f with [] => s | _ :: _ => Csv.IN_FIELD end).
Proof.
  intros Hs. unfold after_field.
  destruct (existsb _ f); [auto|]. destruct f; [|auto].
  destruct Hs; auto.
Qed.

(** The fields of a record from the second on, or from the first when the
    record has two fields or more. *)
Lemma read_fields (d : ascii) (fs : Csv.row) (f : text) (r : Csv.row)
  (rest : text) :
  plain_delimiter d = true -> forallb fits (f :: r) = true ->
  Csv.read d {| Csv.st := Csv.START_FIELD; Csv.fields := fs; Csv.field := [] |}
    (Str.join [d] (map (Csv.join_field d) (f :: r)) ++ Csv.lineterminator ++ rest)
  = option_map (cons (fs ++ f :: r)) (Csv.read d Csv.parse_reset rest).
Proof.
  intros Hd. revert fs f. induction r as [|f2 r IH]; intros fs f Hfit;
    cbn [forallb] in Hfit; apply andb_prop in Hfit as [Hf Hr].
  - cbn [map Str.join].
    rewrite read_field; [|exact Hd|now right|discriminate|exact Hf].
    apply read_terminator; [exact Hd|].
    destruct (existsb _ f); [auto|]. destruct f; auto.
  - change (Str.join [d] (map (Csv.join_field d) (f :: f2 :: r)))
      with (Csv.join_field d f
              ++ [d] ++ Str.join [d] (map (Csv.join_field d) (f2 :: r))).
    rewrite <- !app_assoc. cbn [app].
    rewrite read_field; [|exact Hd|now right|discriminate|exact Hf].
    rewrite read_delimiter;
      [|exact Hd|apply field_state_after; now right|].
    2:{ destruct (Str.join _ _); discriminate. }
    rewrite (IH _ _ Hr). now rewrite <- app_assoc.
Qed.

(** A record as [writerow] writes it is read back as it was. *)
Lemma read_row (d : ascii) (r : Csv.row) (rest : text) :
  plain_delimiter d = true -> forallb fits r = true ->
  Csv.read d Csv.parse_reset
    ((Csv.join_row d r ++ Csv.lineterminator) ++ rest)
  = option_map (cons r) (Csv.read d Csv.parse_reset rest).
Proof.
  intros Hd Hfit. rewrite <- app_assoc.
  destruct r as [|f [|f2 r]].
  - cbn [Csv.join_row Str.join map app]. unfold Csv.lineterminator.
    cbn [app Csv.read].
    change (Csv.parse_process_char d Csv.parse_reset Csv.CR)
      with (Some (Csv.goto Csv.EAT_CRNL Csv.parse_reset)).
    cbv iota. cbn [Csv.line_ends].
    change ((Csv.CR =? LF)%char || (Csv.CR =? Csv.CR)%char && negb (LF =? LF)%char)
      with false. cbv iota.
    change (Csv.parse_process_char d (Csv.goto Csv.EAT_CRNL Csv.parse_reset) LF)
      with (Some (Csv.goto Csv.EAT_CRNL Csv.parse_reset)).
    cbv iota.
    assert (L : Csv.line_ends LF rest = true) by now destruct rest.
    rewrite L. reflexivity.
  - destruct f as [|c f].
    + cbn [Csv.join_row app]. unfold Csv.parse_reset.
      rewrite read_open_quote by (discriminate || now left).
      change (Csv.quotechar :: Csv.lineterminator ++ rest)
        with (Csv.doubled [] ++ Csv.quotechar :: Csv.lineterminator ++ rest).
      rewrite read_quoted by (discriminate || reflexivity).
      apply read_terminator; auto.
    + change (Csv.join_row d [c :: f]) with (Csv.join_field d (c :: f)).
      unfold Csv.parse_reset.
      cbn [forallb] in Hfit. apply andb_prop in Hfit as [Hf _].
      rewrite read_field; [|exact Hd|now left|discriminate|exact Hf].
      apply read_terminator; [exact Hd|].
      destruct (existsb _ (c :: f)); auto.
  - assert (E : Csv.join_row d (f :: f2 :: r)
                = Csv.join_field d f
                    ++ d :: Str.join [d] (map (Csv.join_field d) (f2 :: r))).
    { now destruct f. }
    rewrite E. rewrite <- app_assoc. cbn [app]. unfold Csv.parse_reset.
    cbn [forallb] in Hfit. apply andb_prop in Hfit as [Hf Hr].
    rewrite read_field; [|exact Hd|now left|discriminate|exact Hf].
    rewrite read_delimiter;
      [|exact Hd|apply field_state_after; now left|].
    2:{ destruct (Str.join _ _); discriminate. }
    now rewrite (read_fields d ([] ++ [f]) f2 r rest Hd Hr).
Qed.

(** What the writer has written is read back as the records written. *)
Lemma read_file (d : ascii) (rows : list Csv.row) :
  plain_delimiter d = true -> forallb (forallb fits) rows = true ->
  Csv.reader d (file_of d rows) = Some rows.
Proof.
  intros Hd. unfold Csv.reader, file_of.
  induction rows as [|r rows IH]; intros Hfit; [reflexivity|].
  cbn [forallb] in Hfit. apply andb_prop in Hfit as [Hr Hrows].
  cbn [flat_map]. rewrite read_row by assumption.
  now rewrite (IH Hrows).
Qed.

Lemma written_fold (f : card -> Csv.row) (cards : list card) (w : Csv.writer) :
  Csv.written (fold_left (fun w c => Csv.writerow w (f c)) cards w)
  = Csv.written w ++ file_of (Csv.delimiter w) (map f cards).
Proof.
  revert w. induction cards as [|c cards IH]; intros w.
  - cbn [fold_left map file_of flat_map]. now rewrite app_nil_r.
  - cbn [fold_left]. rewrite IH. unfold Csv.writerow.
    cbn [Csv.delimiter Csv.written map file_of flat_map].
    now rewrite <- !app_assoc.
Qed.

(** The file written for a list of cards, whatever the delimiter. *)
Lemma write_cards_file (cards : list card) (d : ascii) (tag_list : option text)
  (card_type : text) :
  write_cards_to_file cards [d] tag_list card_type
  = Ok (file_of d (if text_eqb card_type "Cloze"
                   then map (fun c => [fst c; tags_of tag_list]) cards
                   else map (fun c => [fst c; snd c; tags_of tag_list]) cards)).
Proof.
  unfold write_cards_to_file. cbn [Csv.new bind]. cbv zeta.
  fold (tags_of tag_list).
  destruct (text_eqb card_type _).
  - now rewrite (written_fold (fun c => [fst c; tags_of tag_list])).
  - now rewrite (written_fold (fun c => [fst c; snd c; tags_of tag_list])).
Qed.





(** * Further properties of the code *)

(** ** Stripped fields *)

Lemma lstrip_all_space (s : text) : all_space s = true -> Str.lstrip s = [].
Proof.
  induction s as [|c s IH]; [reflexivity|]. cbn [all_space forallb].
  intros H. apply andb_prop in H as [Hc Hs]. simpl. rewrite Hc. now apply IH.
Qed.

Lemma strip_all_space (s : text) : all_space s = true -> Str.strip s = [].
Proof. intros H. unfold Str.strip. now rewrite lstrip_all_space. Qed.

Lemma strip_fixed (c d : ascii) (mid : text) :
  isspace c = false -> isspace d = false ->
  Str.strip (c :: mid ++ [d]) = c :: mid ++ [d].
Proof.
  intros Hc Hd. unfold Str.strip. rewrite lstrip_id by exact Hc.
  unfold Str.rstrip. change (c :: mid ++ [d]) with ((c :: mid) ++ [d]).
  rewrite rev_app_distr. cbn [rev app]. rewrite lstrip_id by exact Hd.
  change (d :: rev mid ++ [c]) with ([d] ++ rev (c :: mid)).
  now rewrite rev_app_distr, rev_involutive.
Qed.

Lemma strip_single (c : ascii) : isspace c = false -> Str.strip [c] = [c].
Proof.
  intros Hc. unfold Str.strip, Str.rstrip. rewrite lstrip_id by exact Hc.
  cbn [rev app]. now rewrite lstrip_id.
Qed.

(** Stripping twice is stripping once. *)
Lemma strip_idempotent (s : text) : stripped (Str.strip s).
Proof.
  unfold stripped.
  destruct (strip_head s) as [E | (c & r & E & Hc)]; [now rewrite E|].
  destruct (strip_last s) as [E' | (r' & d & E' & Hd)]; [congruence|].
  rewrite E. destruct r' as [|c' r'].
  - rewrite E' in E. injection E as <- <-. now apply strip_single.
  - rewrite E' in E. cbn [app] in E. injection E as -> <-.
    now apply strip_fixed.
Qed.

Lemma pair_sections_forall (P : card -> Prop) (l : list text) :
  (forall a b, P (mk_card (Str.strip a) (Str.strip b))) ->
  Forall P (pair_sections l).
Proof.
  intros HP.
  assert (H : Forall P (pair_sections l) /\
              forall a, Forall P (pair_sections (a :: l))).
  { induction l as [|b l [IH1 IH2]].
    - split; [constructor|intros a; constructor].
    - split; [apply IH2|].
      intros a. cbn [pair_sections]. constructor; [apply HP|exact IH1]. }
  apply H.
Qed.

(** ** Section extractor and detector *)

Lemma pair_sections_length (l : list text) (k : nat) :
  length l = 2 * k \/ length l = 2 * k + 1 -> length (pair_sections l) = k.
Proof.
  revert l. induction k as [|k IH]; intros l H.
  - destruct l as [|a [|b l]]; simpl in *; try reflexivity; lia.
  - destruct l as [|a [|b l]]; simpl in H; try lia.
    cbn [pair_sections length]. f_equal. apply IH. lia.
Qed.

Lemma pieces_length (sc : Re.scanned) :
  length (Re.pieces_of 1 sc) = 2 * match_count sc + 1.
Proof.
  induction sc as [tail|pre m g rest IH]; [reflexivity|].
  cbn [Re.pieces_of match_count seq map app length]. rewrite IH. lia.
Qed.

Lemma sections_count (md_content : text) :
  length (parse_markdown_h2_sections md_content)
  = match_count (Re.finditer h2_re md_content).
Proof.
  unfold parse_markdown_h2_sections, Re.split.
  pose proof (pieces_length (Re.finditer h2_re md_content)) as H.
  destruct (Re.pieces_of 1 (Re.finditer h2_re md_content)) as [|first rest];
    [simpl in H; lia|].
  cbn [length] in H.
  destruct (negb (truthy (Str.strip first))); apply pair_sections_length;
    cbn [length]; lia.
Qed.

(** The lazy title followed by the end of the line always matches. *)
Lemma title_total {A : Type} (k : @Re.kont A) (s : text) :
  (forall n prev s' g, Re.at_eol s' = true -> k n prev s' g <> None) ->
  forall n prev g,
    Re.lazy_star Re.dot
      (fun n' prev' s' g' => if Re.at_eol s' then k n' prev' s' g' else None)
      n prev s g <> None.
Proof.
  intros Hk. induction s as [|c s IH]; intros n prev g.
  - simpl. destruct (k n prev [] g) eqn:E; [discriminate|].
    now apply Hk in E.
  - cbn [Re.lazy_star Re.at_eol]. unfold Re.dot at 1.
    destruct (c =? LF)%char eqn:Ec.
    + destruct (k n prev (c :: s) g) eqn:E; [discriminate|].
      apply Hk in E; [easy|exact Ec].
    + cbn [negb]. apply IH.
Qed.

(** Where the header pattern of the detector matches, the pattern of the
    extractor matches, and conversely. *)
Lemma h2_match_iff (prev : option ascii) (s : text) :
  Re.match_at h2_start_re prev s <> None <-> Re.match_at h2_re prev s <> None.
Proof.
  unfold Re.match_at, h2_start_re, h2_re. cbn [Re.rmatch].
  destruct (Re.at_bol prev); [|easy].
  split; intros H.
  - destruct (Re.lit "##" _ 0 prev s []) eqn:E in H; [|easy].
    apply lit_inv in E as (s1 & -> & E).
    rewrite lit_app. destruct s1 as [|c s1]; [discriminate|].
    destruct (isspace c); [|discriminate].
    apply star_total. intros n' prev' s' g'. now apply title_total.
  - destruct (Re.lit "##" _ 0 prev s []) eqn:E in H; [|easy].
    apply lit_inv in E as (s1 & -> & E).
    rewrite lit_app. destruct s1 as [|c s1]; [discriminate|].
    destruct (isspace c); [|discriminate].
    now apply star_total.
Qed.

Lemma h2_no_match_at_end (prev : option ascii) :
  Re.match_at h2_start_re prev [] = None.
Proof. unfold Re.match_at, h2_start_re. simpl. now destruct (Re.at_bol prev). Qed.

(** The search of the detector fails exactly when the scan of the
    extractor finds nothing. *)
Lemma h2_search_scan (s : text) :
  forall prev before gap,
    Re.search_from h2_start_re prev before s = None <->
    match_count (Re.scan h2_re 0 prev gap s) = 0.
Proof.
  induction s as [|c s IH]; intros prev before gap.
  - cbn [Re.search_from Re.scan match_count]. rewrite h2_no_match_at_end.
    tauto.
  - cbn [Re.search_from Re.scan].
    pose proof (h2_match_iff prev (c :: s)) as Hiff.
    destruct (Re.match_at h2_start_re prev (c :: s)) as [[n g]|] eqn:E1.
    + destruct (Re.match_at h2_re prev (c :: s)) as [[n' g']|] eqn:E2.
      * assert (Hn : 0 < n')
          by (apply (match_never_empty h2_re prev (c :: s) n' g'); easy).
        destruct n' as [|k]; [lia|]. cbn [match_count]. split; [easy|lia].
      * exfalso. exact (proj1 Hiff ltac:(discriminate) eq_refl).
    + destruct (Re.match_at h2_re prev (c :: s)) as [[n' g']|] eqn:E2.
      * exfalso. exact (proj2 Hiff ltac:(discriminate) eq_refl).
      * apply IH.
Qed.

Lemma detect_sections_search (md_content : text) :
  detect_card_format md_content = sections <->
  Re.search_from h2_start_re None [] md_content <> None.
Proof.
  unfold detect_card_format, Re.search.
  destruct (Re.search_from h2_start_re None [] md_content).
  - split; [discriminate|reflexivity].
  - split; [|easy].
    destruct (_ && _); [discriminate|]. now destruct (match _ with Some _ => true | None => false end).
Qed.

(** X1.  The detector answers [sections] exactly when the section
    extractor has at least one card for the document. *)
Theorem sections_detected_iff_cards (md_content : text) :
  detect_card_format md_content = sections <->
  parse_markdown_h2_sections md_content <> [].
Proof.
  rewrite detect_sections_search.
  pose proof (h2_search_scan md_content None [] []) as H.
  pose proof (sections_count md_content) as Hc.
  unfold Re.finditer in Hc.
  destruct (parse_markdown_h2_sections md_content) as [|c l];
    cbn [length] in Hc.
  - split; [|easy]. intros Hs _. apply Hs. apply H. now symmetry.
  - split; [discriminate|]. intros _ Hs. apply H in Hs. lia.
Qed.

(** X2.  The section extractor returns as many cards as the document has
    matches of the header pattern, whether the text before the first
    header is blank or not. *)
Theorem one_card_per_header (md_content : text) :
  length (parse_markdown_h2_sections md_content)
  = match_count (Re.finditer h2_re md_content).
Proof. apply sections_count. Qed.

(** X3.  The front and the back of every card of the section extractor
    are stripped: neither starts or ends with white space. *)
Theorem section_cards_stripped (md_content : text) :
  Forall (fun c : card => stripped (fst c) /\ stripped (snd c))
    (parse_markdown_h2_sections md_content).
Proof.
  unfold parse_markdown_h2_sections. apply pair_sections_forall.
  intros a b. split; apply strip_idempotent.
Qed.

(** The search stops at a position where the pattern matches. *)
Lemma search_from_inv (r : Re.regex) (s : text) :
  forall prev acc before n g rest,
    Re.search_from r prev acc s = Some (before, n, g, rest) ->
    exists mid, s = mid ++ rest /\
      Re.match_at r (prev_after prev mid) rest = Some (n, g).
Proof.
  induction s as [|c s IH]; intros prev acc before n g rest H;
    cbn [Re.search_from] in H.
  - destruct (Re.match_at r prev []) as [[n' g']|] eqn:E; [|discriminate].
    injection H as _ <- <- <-. now exists [].
  - destruct (Re.match_at r prev (c :: s)) as [[n' g']|] eqn:E.
    + injection H as _ <- <- <-. now exists [].
    + apply IH in H as (mid & -> & H). now exists (c :: mid).
Qed.

Lemma bol_at_line_start (pre : text) :
  Re.at_bol (prev_after None pre) = true -> at_line_start pre.
Proof.
  induction pre as [|c p _] using rev_ind; [now left|].
  rewrite prev_after_app. cbn. intros H. apply Ascii.eqb_eq in H as ->.
  right. now exists p.
Qed.

Lemma h2_start_match_inv (prev : option ascii) (s : text) :
  Re.match_at h2_start_re prev s <> None ->
  Re.at_bol prev = true /\
  exists w post, isspace w = true /\ s = "##" ++ w :: post.
Proof.
  unfold Re.match_at, h2_start_re. cbn [Re.rmatch].
  destruct (Re.at_bol prev); [|easy]. intros H. split; [reflexivity|].
  destruct (Re.lit "##" _ 0 prev s []) eqn:E; [|easy].
  apply lit_inv in E as (s1 & -> & E).
  destruct s1 as [|c s1]; [discriminate|].
  destruct (isspace c) eqn:Hc; [|discriminate].
  now exists c, s1.
Qed.

(** X4.  The detector answers [sections] exactly when the document has,
    at the start of a line, [##] followed by a white-space character. *)
Theorem sections_detected_iff_header (md_content : text) :
  detect_card_format md_content = sections <->
  exists pre w post,
    at_line_start pre /\ isspace w = true /\
    md_content = pre ++ "##" ++ w :: post.
Proof.
  split.
  - rewrite detect_sections_search. intros H.
    destruct (Re.search_from h2_start_re None [] md_content)
      as [[[[before n] g] rest]|] eqn:E; [|easy].
    apply search_from_inv in E as (mid & -> & E).
    destruct (h2_start_match_inv (prev_after None mid) rest)
      as (Hb & w & post & Hw & ->); [now rewrite E|].
    exists mid, w, post. split; [now apply bol_at_line_start|easy].
  - intros (pre & w & post & Hpre & Hw & ->). now apply detect_sections_at.
Qed.

Lemma h2_no_match (prev : option ascii) (c : ascii) (s : text) :
  c <> "#"%char -> Re.match_at h2_re prev (c :: s) = None.
Proof.
  intros H. unfold Re.match_at, h2_re. cbn [Re.rmatch list_ascii_of_string].
  destruct (Re.at_bol prev); [|reflexivity].
  apply lit_mismatch. congruence.
Qed.

Lemma all_space_in (s : text) (c : ascii) :
  all_space s = true -> In c s -> isspace c = true.
Proof. unfold all_space. rewrite forallb_forall. auto. Qed.

(** The header pattern on a header: the white space after [##], which may
    run over line feeds, then the title up to the end of its line. *)
Lemma h2_header_match (prev : option ascii) (ws title body : text) :
  Re.at_bol prev = true ->
  ws <> [] -> all_space ws = true ->
  title <> [] -> Str.lstrip title = title -> forallb Re.dot title = true ->
  Re.at_eol body = true ->
  Re.match_at h2_re prev (("##" ++ ws ++ title) ++ body)
  = Some (length ("##" ++ ws ++ title), [(1, title)]).
Proof.
  intros Hb Hne Hws Hte Hstrip Hdot Hbody.
  destruct ws as [|w ws]; [easy|]. cbn [all_space forallb] in Hws.
  apply andb_prop in Hws as [Hw Hws].
  destruct (lstrip_head title) as [E | (c & r & E & Hc)];
    rewrite Hstrip in E; [easy|].
  unfold Re.match_at, h2_re. cbn [Re.rmatch]. rewrite Hb.
  rewrite <- !app_assoc. rewrite (lit_app "##"). cbn [app]. rewrite Hw.
  apply star_run; [exact Hws|now rewrite E|]. cbn beta.
  rewrite lazy_star_run.
  - apply lazy_star_accept. rewrite Hbody. f_equal. f_equal; [len|].
    f_equal. f_equal. apply firstn_exact. len.
  - exact Hdot.
  - intros x s' n' prev' g' Hin. cbn [Re.at_eol].
    rewrite forallb_forall in Hdot. specialize (Hdot x Hin).
    unfold Re.dot in Hdot. now destruct (x =? LF)%char.
Qed.

(** X5.  A document with a blank preamble, one header and a body without
    [#] gives exactly the card of the stripped title and the stripped
    body.  The white space between [##] and the title may contain line
    feeds: the title is then taken from a later line. *)
Theorem single_section_card (lead ws title body : text) :
  all_space lead = true -> at_line_start lead ->
  ws <> [] -> all_space ws = true ->
  title <> [] -> Str.lstrip title = title -> forallb Re.dot title = true ->
  Re.at_eol body = true -> lacks "#" body = true ->
  parse_markdown_h2_sections (lead ++ "##" ++ ws ++ title ++ body)
  = [mk_card (Str.strip title) (Str.strip body)].
Proof.
  intros Hlead Hstart Hne Hws Hte Hstrip Hdot Heol Hbody.
  assert (Hsplit : Re.split h2_re 1 (lead ++ "##" ++ ws ++ title ++ body)
                   = [lead; title; body]).
  { unfold Re.split, Re.finditer. rewrite scan_no_match.
    2:{ intros c prev s' Hin. apply h2_no_match. intros ->.
        now pose proof (all_space_in lead _ Hlead Hin). }
    replace ("##" ++ ws ++ title ++ body) with (("##" ++ ws ++ title) ++ body)
      by now rewrite <- !app_assoc.
    rewrite (scan_match_app h2_re _ body [(1, title)]).
    - rewrite <- (app_nil_r body) at 1. rewrite scan_no_match.
      2:{ intros c prev s' Hin. apply h2_no_match.
          now apply (lacks_in "#" body). }
      cbn [Re.scan Re.pieces_of seq map app Re.group_text Re.group Nat.eqb].
      now rewrite !app_nil_r, !rev_involutive.
    - discriminate.
    - apply h2_header_match; auto. now apply at_line_start_bol. }
  unfold parse_markdown_h2_sections. rewrite Hsplit.
  now rewrite strip_all_space.
Qed.

(** A header whose title stands on the next line, after an empty line. *)
Lemma single_section_card_witness :
  parse_markdown_h2_sections
    (nl ++ "##" ++ (" " ++ nl) ++ "Title " ++ (nl ++ "body text" ++ nl))
  = [mk_card (Str.strip "Title ") (Str.strip (nl ++ "body text" ++ nl))].
Proof.
  refine (single_section_card nl (" " ++ nl) "Title " (nl ++ "body text" ++ nl)
            _ _ _ _ _ _ _ _ _);
    try solve [reflexivity | discriminate].
  right. now exists [].
Defined.

(** ** Code-block extractor *)

Lemma rfind_from_absent (sub s : text) (lo hi : Z) :
  Str.contains sub s = false ->
  forall i best, Str.rfind_from sub s lo hi i best = best.
Proof.
  induction s as [|c s IH]; cbn [Str.contains Str.rfind_from]; intros H i best.
  - apply orb_false_elim in H as [-> _]. reflexivity.
  - apply orb_false_elim in H as [-> H]. cbn [andb]. now apply IH.
Qed.

Lemma code_cards_none (md : text) (blocks : list (text * text)) :
  (forall b, code_block_card md b = None) -> code_cards md blocks = [].
Proof.
  intros H. induction blocks as [|b blocks IH]; [reflexivity|].
  cbn [code_cards]. now rewrite H.
Qed.

(** X6.  A document without a blank line (two line feeds in a row) gives
    no code-block card, however many fenced blocks it has. *)
Theorem code_blocks_need_blank_line (md_content : text) :
  Str.contains blank md_content = false ->
  parse_markdown_code_blocks md_content = [].
Proof.
  intros H. unfold parse_markdown_code_blocks. apply code_cards_none.
  intros [lang code0]. unfold code_block_card, Str.rfind.
  change (nl ++ nl) with blank. now rewrite rfind_from_absent.
Qed.

(** Two fenced blocks under one another, no empty line in between. *)
Lemma code_blocks_need_blank_line_witness :
  parse_markdown_code_blocks
    ("Two blocks:" ++ nl ++ "```py" ++ nl ++ "x = 1" ++ nl ++ "```" ++ nl
       ++ "then" ++ nl ++ "```sh" ++ nl ++ "ls" ++ nl ++ "```" ++ nl)
  = [].
Proof.
  apply code_blocks_need_blank_line. reflexivity.
Defined.

Lemma code_cards_forall (P : card -> Prop) (md : text)
  (blocks : list (text * text)) :
  (forall b c, code_block_card md b = Some c -> P c) ->
  Forall P (code_cards md blocks).
Proof.
  intros H. induction blocks as [|b blocks IH]; [constructor|].
  cbn [code_cards]. destruct (code_block_card md b) as [c|] eqn:E; [|exact IH].
  constructor; [now apply (H b)|exact IH].
Qed.

(** X7.  Every card of the code-block extractor has a front that starts
    with ["What does this "] and a back that is not empty, is stripped and
    does not start with a fence. *)
Theorem code_cards_shape (md_content : text) :
  Forall (fun c : card =>
            Str.startswith "What does this " (fst c) = true /\
            snd c <> [] /\ stripped (snd c) /\
            Str.startswith fence (snd c) = false)
    (parse_markdown_code_blocks md_content).
Proof.
  apply code_cards_forall. intros [lang code0] c. unfold code_block_card.
  destruct (negb _); [|discriminate].
  match goal with |- context [truthy ?x] => set (ctx := x) end.
  assert (Hs : stripped ctx) by apply strip_idempotent.
  clearbody ctx.
  destruct ctx as [|x ctx]; [discriminate|]. cbn [truthy andb].
  destruct (Str.startswith fence (x :: ctx)) eqn:Hf; [discriminate|].
  intros [= <-]. cbn [mk_card fst snd]. repeat split; easy.
Qed.



(** ** Cloze extractor *)

(** The pieces of a split are made of characters of the text, and none is
    longer than the text. *)
Lemma scan_pieces (r : Re.regex) (P : ascii -> bool) (s : text) :
  forall skip prev gap,
    Forall (fun p => (forallb P gap = true -> forallb P s = true ->
                      forallb P p = true) /\
                     length p <= length gap + length s)
      (Re.pieces_of 0 (Re.scan r skip prev gap s)).
Proof.
  assert (Hrev : forall gap : text,
            forallb P gap = true -> forallb P (rev gap) = true).
  { intros gap H. rewrite forallb_forall in *. intros x Hx.
    apply H. now apply in_rev. }
  induction s as [|c s IH]; intros skip prev gap.
  - assert (H : Re.scan r skip prev gap [] = Re.Done (rev gap))
      by now destruct skip.
    rewrite H. cbn [Re.pieces_of]. constructor; [|constructor].
    split; [auto|]. rewrite length_rev. lia.
  - assert (Hstep : forall skip' prev' gap',
              (forallb P gap = true -> forallb P (c :: s) = true ->
               forallb P gap' = true) ->
              length gap' <= S (length gap) ->
              Forall (fun p => (forallb P gap = true ->
                                forallb P (c :: s) = true ->
                                forallb P p = true) /\
                               length p <= length gap + length (c :: s))
                (Re.pieces_of 0 (Re.scan r skip' prev' gap' s))).
    { intros skip' prev' gap' Hg Hl.
      refine (Forall_impl _ _ (IH skip' prev' gap')).
      intros p [Hp Hlen]. split.
      - intros H1 H2. apply Hp; [now apply Hg|].
        cbn [forallb] in H2. now apply andb_prop in H2.
      - cbn [length]. lia. }
    destruct skip as [|k]; cbn [Re.scan].
    + destruct (Re.match_at r prev (c :: s)) as [[[|k] g]|].
      * apply Hstep; [|cbn [length]; lia].
        intros H1 H2. cbn [forallb] in *. apply andb_prop in H2 as [-> _].
        exact H1.
      * cbn [Re.pieces_of seq map app]. constructor.
        -- split; [auto|]. rewrite length_rev. lia.
        -- apply Hstep; [reflexivity|cbn [length]; lia].
      * apply Hstep; [|cbn [length]; lia].
        intros H1 H2. cbn [forallb] in *. apply andb_prop in H2 as [-> _].
        exact H1.
    + apply Hstep; [auto|lia].
Qed.

Lemma paragraphs_of (P : ascii -> bool) (md : text) :
  Forall (fun p => (forallb P md = true -> forallb P p = true) /\
                   length p <= length md)
    (Re.split paragraph_re 0 md).
Proof.
  refine (Forall_impl _ _ (scan_pieces paragraph_re P md 0 None [])).
  intros p [H1 H2]. split; [now apply H1|exact H2].
Qed.

Lemma cloze_paragraph_plain (p : text) :
  plain p = true -> cloze_paragraph p = Ok None.
Proof.
  intros H. unfold cloze_paragraph. rewrite findall_plain by exact H.
  now destruct (_ || _).
Qed.

(** X9.  A document without [*] and without backtick gives no cloze card,
    and the cloze extractor does not raise on it. *)
Theorem cloze_plain_document (md_content : text) :
  plain md_content = true -> create_cloze_cards md_content = Ok [].
Proof.
  intros H. apply andb_prop in H as [Hs Ht].
  unfold create_cloze_cards. apply cloze_loop_none.
  pose proof (paragraphs_of (fun c => negb (c =? star_char)%char) md_content) as H1.
  pose proof (paragraphs_of (fun c => negb (c =? tick_char)%char) md_content) as H2.
  rewrite Forall_forall in *. intros p Hin.
  apply cloze_paragraph_plain. unfold plain, lacks.
  now rewrite (proj1 (H1 p Hin) Hs), (proj1 (H2 p Hin) Ht).
Qed.

Lemma cloze_plain_document_witness :
  create_cloze_cards
    ("Plain prose, long enough to be a paragraph." ++ blank ++ "And another one.")
  = Ok [].
Proof. apply cloze_plain_document. reflexivity. Defined.

(** X10.  A document shorter than 20 characters gives no cloze card,
    whatever it highlights, and the cloze extractor does not raise on
    it. *)
Theorem cloze_short_document (md_content : text) :
  length md_content < 20 -> create_cloze_cards md_content = Ok [].
Proof.
  intros H. unfold create_cloze_cards. apply cloze_loop_none.
  pose proof (paragraphs_of (fun _ => true) md_content) as H1.
  rewrite Forall_forall in *. intros p Hin.
  apply cloze_paragraph_short. destruct (H1 p Hin) as [_ Hl]. lia.
Qed.

Lemma cloze_short_document_witness :
  create_cloze_cards ("**** and **a**" ++ blank ++ "`b`") = Ok [].
Proof. apply cloze_short_document. simpl. lia. Defined.

Lemma cloze_paragraph_card (paragraph : text) (c : card) :
  cloze_paragraph paragraph = Ok (Some c) ->
  snd c = [] /\ Str.contains "{{c" (fst c) = true.
Proof.
  unfold cloze_paragraph.
  destruct (_ || _); [discriminate|].
  destruct (Re.findall2 highlight_re paragraph) as [|h hs]; [discriminate|].
  destruct (foldM cloze_step (h :: hs) (paragraph, 1)) as [st|e]; cbn [bind];
    [|discriminate].
  destruct (Str.contains "{{c" (fst st)) eqn:E; [|discriminate].
  intros [= <-]. now split.
Qed.

(** X11.  Every card of the cloze extractor has an empty back and a front
    that contains the start [{{c] of a deletion marker. *)
Theorem cloze_cards_shape (md_content : text) :
  match create_cloze_cards md_content with
  | Ok cards =>
      Forall (fun c : card =>
                snd c = [] /\ Str.contains "{{c" (fst c) = true) cards
  | Raise _ => True
  end.
Proof.
  destruct (create_cloze_cards md_content) as [cards|e] eqn:E; [|exact I].
  refine (foldM_invariant
            (Forall (fun c : card =>
                       snd c = [] /\ Str.contains "{{c" (fst c) = true))
            cloze_loop _ _ [] cards _ E); [|constructor].
  intros a p a' Ha. unfold cloze_loop.
  destruct (cloze_paragraph p) as [[c|]|e] eqn:Ep; cbn [bind];
    intros [= <-]; [|exact Ha].
  apply Forall_app. split; [exact Ha|].
  constructor; [|constructor]. now apply (cloze_paragraph_card p).
Qed.

Lemma template_unknown_escape (e : ascii) (rest : text) :
  unknown_escape e = true ->
  Re.parse_template Re.TNormal (backslash :: e :: rest) = Raise ReError.
Proof.
  destruct e as [[] [] [] [] [] [] [] []]; try discriminate; reflexivity.
Qed.

Lemma template_raises_after (a rest : text) :
  lacks backslash a = true ->
  Re.parse_template Re.TNormal rest = Raise ReError ->
  Re.parse_template Re.TNormal (a ++ rest) = Raise ReError.
Proof.
  intros Ha Hr. induction a as [|c a IH]; [exact Hr|].
  cbn [lacks forallb] in Ha. apply andb_prop in Ha as [Hc Ha].
  cbn [app Re.parse_template]. fold backslash. rewrite Hc, (IH Ha).
  reflexivity.
Qed.

Lemma cloze_step_backslash (pre a b tail : text) (e : ascii) (count : nat) :
  lacks star_char pre = true ->
  lacks backslash a = true -> unknown_escape e = true ->
  cloze_step (pre ++ "**" ++ (a ++ backslash :: e :: b) ++ "**" ++ tail, count)
    (a ++ backslash :: e :: b, [])
  = Raise ReError.
Proof.
  intros Hp Ha He.
  remember (a ++ backslash :: e :: b) as h eqn:Eh.
  assert (Hh : next_truthy (h, []) = Ok h).
  { unfold next_truthy. subst h. now destruct a. }
  assert (Ht : Re.parse_template Re.TNormal (cloze_marker count h)
               = Raise ReError).
  { unfold cloze_marker. subst h.
    replace ("{{c" ++ str_of_nat count ++ "::"
               ++ (a ++ backslash :: e :: b) ++ "}}")
      with (("{{c" ++ str_of_nat count ++ "::" ++ a)
              ++ backslash :: e :: b ++ "}}")
      by (now rewrite <- !app_assoc).
    apply template_raises_after.
    - unfold str_of_nat. now rewrite !lacks_app, str_of_uint_plain, Ha.
    - now apply template_unknown_escape. }
  assert (E : Re.search_from (Re.Lit ("**" ++ h ++ "**")) None []
                (pre ++ "**" ++ h ++ "**" ++ tail)
              = Some (pre, length ("**" ++ h ++ "**"), [],
                      ("**" ++ h ++ "**") ++ tail)).
  { rewrite highlight_assoc. now apply (search_literal star_char). }
  unfold cloze_step. rewrite Hh. cbn [bind].
  unfold Re.search. rewrite E. cbn [negb]. unfold Re.sub1.
  now rewrite Ht.
Qed.

(** The paragraph of such a span. *)
Lemma cloze_paragraph_backslash (pre a b tail : text) (e : ascii) :
  plain pre = true ->
  Str.startswith "#" (pre ++ "**") = false ->
  lacks backslash a = true -> unknown_escape e = true ->
  lacks star_char (a ++ backslash :: e :: b) = true ->
  forallb Re.dot (a ++ backslash :: e :: b) = true ->
  20 <= length (pre ++ "**" ++ (a ++ backslash :: e :: b) ++ "**" ++ tail) ->
  cloze_paragraph (pre ++ "**" ++ (a ++ backslash :: e :: b) ++ "**" ++ tail)
  = Raise ReError.
Proof.
  intros Hpre Hhash Ha He Hs Hd Hlen.
  unfold cloze_paragraph.
  assert (H1 : Str.startswith "#"
                 (pre ++ "**" ++ (a ++ backslash :: e :: b) ++ "**" ++ tail)
               = false).
  { destruct pre as [|c pre]; [reflexivity|exact Hhash]. }
  rewrite H1. replace (length _ <? 20)%nat with false
    by (symmetry; now apply Nat.ltb_ge).
  cbn [orb]. rewrite findall_bold by assumption. cbn [foldM].
  apply andb_prop in Hpre as [Hp _].
  now rewrite cloze_step_backslash.
Qed.

(** X12.  Take a document whose paragraphs before a given one have no [*]
    and no backtick.  If this paragraph has 20 characters or more, does
    not start with [#], and its first highlighted span is a bold span, on
    one line and without [*], in which the first backslash is followed by
    a letter that is no escape of a replacement template, then the cloze
    extractor raises [re.error]: the text of the span is used as the
    replacement. *)
Theorem cloze_backslash_raises (md_content : text) (before after : list text)
  (pre a b tail : text) (e : ascii) :
  plain pre = true ->
  Str.startswith "#" (pre ++ "**") = false ->
  lacks backslash a = true -> unknown_escape e = true ->
  lacks star_char (a ++ backslash :: e :: b) = true ->
  forallb Re.dot (a ++ backslash :: e :: b) = true ->
  20 <= length (pre ++ "**" ++ (a ++ backslash :: e :: b) ++ "**" ++ tail) ->
  forallb plain before = true ->
  paragraphs md_content
  = before ++ (pre ++ "**" ++ (a ++ backslash :: e :: b) ++ "**" ++ tail) :: after ->
  create_cloze_cards md_content = Raise ReError.
Proof.
  intros Hpre Hhash Ha He Hs Hd Hlen Hbefore Hmd.
  unfold create_cloze_cards. fold (paragraphs md_content). rewrite Hmd.
  rewrite foldM_app, cloze_loop_none.
  2:{ apply Forall_forall. intros p Hin. apply cloze_paragraph_plain.
      now apply (proj1 (forallb_forall _ _) Hbefore). }
  cbn [bind foldM]. unfold cloze_loop at 1.
  now rewrite cloze_paragraph_backslash.
Qed.

Lemma cloze_backslash_raises_witness :
  create_cloze_cards
    ("Regular expressions" ++ blank
       ++ "Use " ++ "**" ++ ([] ++ backslash :: "d"%char :: "+") ++ "**"
       ++ " to match a run of digits" ++ blank ++ "The end.")
  = Raise ReError.
Proof.
  refine (cloze_backslash_raises _ ["Regular expressions" : text]
            ["The end." : text] "Use " [] "+" " to match a run of digits" "d"
            _ _ _ _ _ _ _ _ _);
    solve [reflexivity | simpl; lia].
Defined.

(** ** Detector, conversion, writer and orchestrator *)

Lemma search_nowhere (r : Re.regex) (md : text) :
  (forall c prev s, In c md -> Re.match_at r prev (c :: s) = None) ->
  (forall prev, Re.match_at r prev [] = None) ->
  Re.search r md = false.
Proof.
  intros H Hend. unfold Re.search.
  rewrite <- (app_nil_r md). rewrite search_from_skip by exact H.
  cbn [Re.search_from]. now rewrite Hend.
Qed.

(** X13.  A document without [#], without the bullet characters [-] and
    [*] and without backtick is given the fallback format [cloze]. *)
Theorem plain_text_detected_as_cloze (md_content : text) :
  lacks "#" md_content = true -> lacks "-" md_content = true ->
  lacks star_char md_content = true -> no_backtick md_content = true ->
  detect_card_format md_content = cloze.
Proof.
  intros Hh Hm Hs Ht. unfold detect_card_format.
  assert (E1 : Re.search h2_start_re md_content = false).
  { apply search_nowhere; [|apply h2_no_match_at_end].
    intros c prev s Hin. unfold Re.match_at, h2_start_re.
    cbn [Re.rmatch list_ascii_of_string]. destruct (Re.at_bol prev); [|easy].
    apply lit_mismatch. intros E. now apply (lacks_in "#" md_content c Hh Hin). }
  assert (E2 : Re.search bullet_re md_content = false).
  { apply search_nowhere.
    - intros c prev s Hin. unfold Re.match_at, bullet_re.
      cbn [Re.rmatch list_ascii_of_string]. destruct (Re.at_bol prev); [|easy].
      rewrite !lit_mismatch; [reflexivity| |].
      + intros E. now apply (lacks_in star_char md_content c Hs Hin).
      + intros E. now apply (lacks_in "-" md_content c Hm Hin).
    - intros prev. unfold Re.match_at, bullet_re. simpl.
      now destruct (Re.at_bol prev). }
  assert (E3 : Re.search fence_open_re md_content = false).
  { apply search_nowhere; [|reflexivity].
    intros c prev s Hin. unfold Re.match_at, fence_open_re.
    cbn [Re.rmatch]. rewrite fence_cons. apply lit_mismatch.
    intros E. now apply (no_backtick_in md_content c Ht Hin). }
  now rewrite E1, E2, E3.
Qed.

Lemma plain_text_detected_as_cloze_witness :
  detect_card_format ("Just a sentence." ++ nl ++ "And a second line.") = cloze.
Proof. apply plain_text_detected_as_cloze; reflexivity. Defined.

Lemma bullets_nil (md_content : text) :
  parse_markdown_bullet_points md_content = [].
Proof.
  unfold parse_markdown_bullet_points, bullet_loop.
  destruct (bullet_fold_no_answer (Str.split LF md_content) bullet_init
              eq_refl eq_refl) as [Hc Ha].
  now rewrite bullet_flush_no_answer.
Qed.

Lemma write_cards_bad_delimiter (cards : list card) (delimiter : text)
  (tag_list : option text) (card_type : text) :
  length delimiter <> 1 ->
  write_cards_to_file cards delimiter tag_list card_type = Raise TypeError.
Proof.
  intros H. unfold write_cards_to_file.
  destruct delimiter as [|d [|d' l]]; [reflexivity|now simpl in H|reflexivity].
Qed.

Lemma convert_format (md : text) (cloze_mode : bool) (cards : list card)
  (f : format) :
  convert_md_to_anki md cloze_mode = Ok (cards, f) ->
  f = (if cloze_mode then cloze else detect_card_format md).
Proof.
  unfold convert_md_to_anki.
  destruct (if cloze_mode then cloze else detect_card_format md);
    try (now intros [= _ <-]).
  destruct (create_cloze_cards md); cbn [bind]; [now intros [= _ <-]|discriminate].
Qed.

Lemma card_type_cloze (cloze_mode : bool) (md : text) :
  card_type_of cloze_mode (if cloze_mode then cloze else detect_card_format md)
  = if is_cloze (if cloze_mode then cloze else detect_card_format md)
    then "Cloze" else "Basic".
Proof. now destruct cloze_mode. Qed.

(** X14.  When the format detected is [bullets] and [--cloze] is not
    given, a run with a readable input, a writable output and a delimiter
    of one character succeeds with the status 0 and writes no record: the
    output file is empty and the summary counts 0 cards. *)
Theorem main_bullets_writes_empty_file (args : arguments) (md_content : text)
  (d : ascii) :
  arg_cloze args = false -> detect_card_format md_content = bullets ->
  delimiter_of args = [d] ->
  main args (Read md_content) true
  = Ok {| exit_code := 0; output_file := Some [];
          summary := Some (0, bullets, "Basic" : text) |}.
Proof.
  intros Hc Hd Hdel. unfold main, convert_md_to_anki.
  rewrite Hc, Hd, bullets_nil. cbn [bind fst snd]. rewrite Hdel. reflexivity.
Qed.

Lemma main_bullets_writes_empty_file_witness :
  main {| arg_format := Csv_format; arg_delimiter := None;
          arg_tags := "biology"; arg_cloze := false |}
       (Read bullet_example) true
  = Ok {| exit_code := 0; output_file := Some [];
          summary := Some (0, bullets, "Basic" : text) |}.
Proof.
  apply (main_bullets_writes_empty_file _ _ ","%char); reflexivity.
Defined.

(** X15.  A run that returns the status 0 has read the input, converted it
    without exception and written, with the one character of the
    delimiter, the file of one record per card, in order: the front and
    the tags when the format is [cloze], the front, the back and the tags
    otherwise.  When the delimiter is neither the quote character nor CR
    nor LF and the fields are within the limit of the reader, this file is
    read back as these records.  The card type of the summary is Cloze
    exactly when the format is [cloze]. *)
Theorem main_success (args : arguments) (input : read_outcome)
  (can_open : bool) (o : outcome) :
  main args input can_open = Ok o -> exit_code o = 0%Z ->
  exists md_content cards f d,
    input = Read md_content /\
    convert_md_to_anki md_content (arg_cloze args) = Ok (cards, f) /\
    delimiter_of args = [d] /\
    let records :=
      if is_cloze f
      then map (fun c => [fst c; arg_tags args]) cards
      else map (fun c => [fst c; snd c; arg_tags args]) cards in
    output_file o = Some (file_of d records) /\
    (plain_delimiter d = true -> forallb (forallb fits) records = true ->
     Csv.reader d (file_of d records) = Some records) /\
    summary o
    = Some (length cards, f, if is_cloze f then "Cloze" : text else "Basic").
Proof.
  unfold main. destruct input as [md| |]; try (intros [= <-]; discriminate).
  destruct (convert_md_to_anki md (arg_cloze args)) as [[cards f]|e] eqn:Ec;
    cbn [bind fst snd]; [|discriminate].
  destruct can_open; [|intros [= <-]; discriminate].
  destruct (delimiter_of args) as [|d [|d' l]] eqn:Ed;
    [intros [= <-]; discriminate| |intros [= <-]; discriminate].
  rewrite write_cards_file. intros [= <-] _. cbn [output_file summary].
  exists md, cards, f, d. split; [reflexivity|]. split; [exact Ec|].
  split; [reflexivity|].
  pose proof (convert_format md _ cards f Ec) as Hf.
  pose proof (card_type_cloze (arg_cloze args) md) as Ht.
  rewrite <- Hf in Ht. rewrite Ht. cbn [tags_of]. cbv zeta.
  destruct (is_cloze f);
    (split; [reflexivity|split; [apply read_file|reflexivity]]).
Qed.

Lemma main_success_witness :
  exists md_content cards f d,
    Read preamble_example = Read md_content /\
    convert_md_to_anki md_content false = Ok (cards, f) /\
    [TAB] = [d] /\
    let records :=
      if is_cloze f
      then map (fun c => [fst c; "t" : text]) cards
      else map (fun c => [fst c; snd c; "t" : text]) cards in
    Some ("intro" ++ [TAB] ++ "A" ++ [TAB] ++ "t" ++ Csv.lineterminator
            ++ "body1" ++ [TAB] ++ "B" ++ [TAB] ++ "t" ++ Csv.lineterminator)
    = Some (file_of d records) /\
    (plain_delimiter d = true -> forallb (forallb fits) records = true ->
     Csv.reader d (file_of d records) = Some records) /\
    Some (2, sections, "Basic" : text)
    = Some (length cards, f, if is_cloze f then "Cloze" : text else "Basic").
Proof.
  refine (main_success
            {| arg_format := Tsv_format; arg_delimiter := None;
               arg_tags := "t"; arg_cloze := false |}
            (Read preamble_example) true
            {| exit_code := 0;
               output_file :=
                 Some ("intro" ++ [TAB] ++ "A" ++ [TAB] ++ "t"
                         ++ Csv.lineterminator
                         ++ "body1" ++ [TAB] ++ "B" ++ [TAB] ++ "t"
                         ++ Csv.lineterminator);
               summary := Some (2, sections, "Basic" : text) |} _ _);
    reflexivity.
Defined.

(** X16.  With a delimiter that is not one character, a run whose
    conversion returns gives the status 1, prints no summary and leaves
    the output file opened and empty. *)
Theorem main_bad_delimiter (args : arguments) (md_content : text)
  (cards : list card) (f : format) :
  convert_md_to_anki md_content (arg_cloze args) = Ok (cards, f) ->
  length (delimiter_of args) <> 1 ->
  main args (Read md_content) true
  = Ok {| exit_code := 1; output_file := Some []; summary := None |}.
Proof.
  intros Hc Hd. unfold main. rewrite Hc. cbn [bind fst snd].
  now rewrite write_cards_bad_delimiter.
Qed.

Lemma main_bad_delimiter_witness :
  main {| arg_format := Csv_format; arg_delimiter := Some ("::" : text);
          arg_tags := []; arg_cloze := false |}
       (Read preamble_example) true
  = Ok {| exit_code := 1; output_file := Some []; summary := None |}.
Proof.
  refine (main_bad_delimiter _ preamble_example
            [mk_card "intro" "A"; mk_card "body1" "B"] sections _ _);
    [reflexivity|discriminate].
Defined.

(** X17.  An exception escapes a run exactly when the input was read, the
    cloze extractor was chosen (by [--cloze] or by detection) and this
    extractor raised it. *)
Theorem main_raises_iff_cloze_raises (args : arguments) (input : read_outcome)
  (can_open : bool) (e : exn) :
  main args input can_open = Raise e <->
  exists md_content,
    input = Read md_content /\
    (arg_cloze args = true \/ detect_card_format md_content = cloze) /\
    create_cloze_cards md_content = Raise e.
Proof.
  unfold main, convert_md_to_anki. split.
  - destruct input as [md| |]; try discriminate.
    destruct (arg_cloze args) eqn:Ha.
    + destruct (create_cloze_cards md) as [cards|e'] eqn:Ec; cbn [bind fst snd].
      * destruct can_open; [|discriminate].
        now destruct (write_cards_to_file _ _ _ _).
      * intros [= ->]. exists md. auto.
    + destruct (detect_card_format md) eqn:Hd; cbn [bind fst snd];
        try (destruct can_open; [|discriminate];
             now destruct (write_cards_to_file _ _ _ _)).
      destruct (create_cloze_cards md) as [cards|e'] eqn:Ec; cbn [bind fst snd].
      * destruct can_open; [|discriminate].
        now destruct (write_cards_to_file _ _ _ _).
      * intros [= ->]. exists md. auto.
  - intros (md & -> & [Ha|Hd] & Hr).
    + rewrite Ha, Hr. reflexivity.
    + destruct (arg_cloze args); rewrite ?Hd, Hr; reflexivity.
Qed.
